(** * Traegerbemessungstool: beam design for a simply supported steel girder

    A shallow embedding of the computational part of
    [Trägerbemessungstool.py]: the three load-case evaluators, the
    moving-load envelope, and the top-level profile search with its
    report branch.

    Number model.  The program computes with binary64 numbers (Python
    floats and numpy arrays of them).  Here every number is an exact
    rational ([Q]): rounding and overflow are not modelled, and [Q] has
    neither infinities nor NaN.  numpy answers a division by zero with
    inf or nan (and a warning, no exception) where [Qdiv] answers [0];
    the statements below about the value of a quotient therefore assume
    its divisor non-zero ([0 < L], [0 < Wy], [0 < fy]).  Equalities
    between computed numbers are stated with [==] ([Qeq]).

    The hypothesis [moderate], where a statement has it, keeps an input
    in a range where the program's binary64 arithmetic does not overflow;
    the module [f64] renders the triangular-load evaluator on binary64
    itself, to exhibit such an overflow.

    Arrays are lists; numpy's vectorised operators are written as [map]
    and [map2] over the sample positions.  Exceptions are explicit
    ([py]). *)

From Stdlib Require Import PrimFloat.
From Stdlib Require Import String QArith Qabs Qminmax Qround ZArith List Bool.
From Stdlib Require Import Lia Lqa.
From Stdlib Require Import Setoid Morphisms.
From Stdlib Require Import Sorted.
Import ListNotations.

Local Open Scope Q_scope.

(** ** Exceptions *)

Inductive exn : Type :=
| ValueError.

Inductive py (A : Type) : Type :=
| Ret (a : A)
| Raise (e : exn).

Arguments Ret {A} a.
Arguments Raise {A} e.

Definition bind {A B : Type} (m : py A) (k : A -> py B) : py B :=
  match m with
  | Ret a => k a
  | Raise e => Raise e
  end.

Notation "x <- m ;; k" := (bind m (fun x => k))
  (at level 61, m at next level, right associativity).

(** ** The numpy operations the program uses *)

Module np.

(** Element-wise binary operator on two arrays of one shape. *)
Fixpoint map2 {A B C : Type} (f : A -> B -> C) (xs : list A) (ys : list B)
  : list C :=
  match xs, ys with
  | x :: xs', y :: ys' => f x y :: map2 f xs' ys'
  | _, _ => []
  end.

Definition zeros_like (xs : list Q) : list Q := map (fun _ => 0) xs.

Definition abs (xs : list Q) : list Q := map Qabs xs.

Definition maximum (xs ys : list Q) : list Q := map2 Qmax xs ys.

Definition add (xs ys : list Q) : list Q := map2 Qplus xs ys.

(** [c * xs] with a scalar [c]. *)
Definition scale (c : Q) (xs : list Q) : list Q := map (Qmult c) xs.

(** [xs <= a] and [xs > a]: boolean masks. *)
Definition le_mask (xs : list Q) (a : Q) : list bool :=
  map (fun x => Qle_bool x a) xs.

Definition Qgt_bool (x a : Q) : bool :=
  match x ?= a with
  | Gt => true
  | _ => false
  end.

Definition gt_mask (xs : list Q) (a : Q) : list bool :=
  map (fun x => Qgt_bool x a) xs.

(** [xs[mask]]: the elements under a true mask entry, in order. *)
Fixpoint select {A : Type} (mask : list bool) (xs : list A) : list A :=
  match mask, xs with
  | true :: mask', x :: xs' => x :: select mask' xs'
  | false :: mask', _ :: xs' => select mask' xs'
  | _, _ => []
  end.

(** [arr[mask] = v] with a scalar [v]. *)
Fixpoint assign_scalar {A : Type} (mask : list bool) (v : A) (arr : list A)
  : list A :=
  match mask, arr with
  | true :: mask', _ :: arr' => v :: assign_scalar mask' v arr'
  | false :: mask', y :: arr' => y :: assign_scalar mask' v arr'
  | _, _ => arr
  end.

(** [arr[mask] = vals]: the values are written, in order, to the
    positions under a true mask entry.  numpy raises when [vals] has not
    one value per true entry; the program always passes an array built
    with the same mask, and positions left without a value keep their
    content here. *)
Fixpoint assign {A : Type} (mask : list bool) (vals : list A) (arr : list A)
  : list A :=
  match mask, arr with
  | true :: mask', y :: arr' =>
      match vals with
      | v :: vals' => v :: assign mask' vals' arr'
      | [] => y :: arr'
      end
  | false :: mask', y :: arr' => y :: assign mask' vals arr'
  | _, _ => arr
  end.

(** [np.arange(0, n)] as numbers. *)
Fixpoint arange_from (k : Z) (n : nat) : list Q :=
  match n with
  | O => []
  | S n' => inject_Z k :: arange_from (k + 1) n'
  end.

Definition arange (n : nat) : list Q := arange_from 0 n.

(** [y[-1] = v]. *)
Fixpoint set_last (y : list Q) (v : Q) : list Q :=
  match y with
  | [] => []
  | [_] => [v]
  | h :: t => h :: set_last t v
  end.

(** [np.linspace(start, stop, num)] with [endpoint=True]: a negative
    [num] raises [ValueError]; otherwise [arange(0, num)] is scaled by
    the step [(stop - start) / (num - 1)], shifted by [start], and the
    last entry (for [num > 1]) is overwritten with [stop]. *)
Definition linspace (start stop : Q) (num : Z) : py (list Q) :=
  if (num <? 0)%Z then Raise ValueError
  else
    let div := (num - 1)%Z in
    let y := arange (Z.to_nat num) in
    let delta := stop - start in
    let y :=
      if (0 <? div)%Z then
        let step := delta / inject_Z div in
        if Qeq_bool step 0
        then map (fun k => k / inject_Z div * delta) y
        else map (fun k => k * step) y
      else map (fun k => k * delta) y in
    let y := map (fun v => v + start) y in
    Ret (if (1 <? num)%Z then set_last y stop else y).

(** [np.max] of a one-dimensional array; the empty array raises. *)
Fixpoint max_from (m : Q) (xs : list Q) : Q :=
  match xs with
  | [] => m
  | x :: xs' => max_from (Qmax m x) xs'
  end.

Definition max (xs : list Q) : py Q :=
  match xs with
  | [] => Raise ValueError
  | x :: xs' => Ret (max_from x xs')
  end.

End np.

(** Python's [int(v)] on a number: truncation towards zero. *)
Definition py_int (v : Q) : Z := Z.quot (Qnum v) (Zpos (Qden v)).

(** ** 1. Configuration and data *)

Record props : Type := mk_props { mass : Q; Wy : Q }.

(** The profile table: designation, mass [kg/m], [Wy] [cm^3].  A Python
    dict iterates in insertion order, so the table is an association
    list. *)
Definition IPE_DATA : list (string * props) :=
  [ ("IPE 80"%string,  mk_props 6.0 20.0);
    ("IPE 100"%string, mk_props 8.1 34.2);
    ("IPE 120"%string, mk_props 10.4 53.0);
    ("IPE 140"%string, mk_props 12.9 77.3);
    ("IPE 160"%string, mk_props 15.8 109.0);
    ("IPE 180"%string, mk_props 18.8 146.0);
    ("IPE 200"%string, mk_props 22.4 194.0);
    ("IPE 220"%string, mk_props 26.2 252.0);
    ("IPE 240"%string, mk_props 30.7 324.0);
    ("IPE 270"%string, mk_props 36.1 429.0);
    ("IPE 300"%string, mk_props 42.2 557.0);
    ("IPE 330"%string, mk_props 49.1 713.0);
    ("IPE 360"%string, mk_props 57.1 904.0);
    ("IPE 400"%string, mk_props 66.3 1160.0);
    ("IPE 450"%string, mk_props 77.6 1500.0);
    ("IPE 500"%string, mk_props 90.7 1930.0);
    ("IPE 550"%string, mk_props 106.0 2440.0);
    ("IPE 600"%string, mk_props 122.0 3070.0) ].

(** Yield strength in MPa. *)
Definition STEEL_GRADES : list (string * Q) :=
  [ ("S235"%string, 235.0); ("S355"%string, 355.0) ].

(** ** 2. Mechanics *)

(** Uniform load [q] (kN/m). *)
Definition calculate_distributed_moment_shear (L q : Q) (x_vals : list Q)
  : list Q * list Q :=
  let Ra := q * L / 2 in
  let V := map (fun x => Ra - q * x) x_vals in
  let M := map (fun x => (q * x / 2) * (L - x)) x_vals in
  (M, V).

(** Triangular load with peak [q_max]. *)
Definition calculate_triangular_moment_shear (L q_max : Q) (x_vals : list Q)
  : list Q * list Q :=
  let Ra := (q_max * L) / 6 in
  let V := map (fun x => Ra - (q_max * x ^ 2) / (2 * L)) x_vals in
  let M := map (fun x => Ra * x - (q_max * x ^ 3) / (6 * L)) x_vals in
  (M, V).

(** One pass of the loop over the load positions: the internal forces
    for the load at [a], folded into the running maxima. *)
Definition envelope_step (L Q_load : Q) (x_vals : list Q)
  (acc : list Q * list Q) (a : Q) : list Q * list Q :=
  let '(max_M, max_V) := acc in
  let Ra := Q_load * (L - a) / L in
  let V_temp := np.zeros_like x_vals in
  let M_temp := np.zeros_like x_vals in
  let mask_left := np.le_mask x_vals a in
  let mask_right := np.gt_mask x_vals a in
  let V_temp := np.assign_scalar mask_left Ra V_temp in
  let V_temp := np.assign_scalar mask_right (Ra - Q_load) V_temp in
  let M_temp :=
    np.assign mask_left (map (fun x => Ra * x) (np.select mask_left x_vals))
      M_temp in
  let M_temp :=
    np.assign mask_right
      (np.map2 Qminus
         (map (fun x => Ra * x) (np.select mask_right x_vals))
         (map (fun x => Q_load * (x - a)) (np.select mask_right x_vals)))
      M_temp in
  let max_M := np.maximum max_M (np.abs M_temp) in
  let max_V := np.maximum max_V (np.abs V_temp) in
  (max_M, max_V).

(** The travelling load [Q_load] (the source names it [Q]): envelope of
    moment and shear. *)
Definition calculate_moving_load_envelope (L Q_load : Q) (x_vals : list Q)
  : py (list Q * list Q) :=
  let max_M := np.zeros_like x_vals in
  let max_V := np.zeros_like x_vals in
  q_positions <- np.linspace 0 L (py_int (L * 10) + 1) ;;
  Ret (fold_left (envelope_step L Q_load x_vals) q_positions (max_M, max_V)).

(** ** 4. Computation and automatic design *)

(** The [results] dict written when a profile passes the check. *)
Record results : Type := mk_results {
  M_Ed : Q;
  V_Ed : Q;
  Sigma : Q;
  Util : Q;
  x : list Q;
  M_array : list Q;
  V_array : list Q
}.

Section Design.

(** The inputs read from the sidebar. *)
Variables (L delta_g Q_load fy : Q).

(** The body of the loop over the profiles, up to the check: internal
    forces, superposition and stress of one profile. *)
Definition evaluate_profile (x : list Q) (p : props) : py results :=
  let g_k := mass p * 9.81 / 1000 in
  let '(M_g, V_g) := calculate_distributed_moment_shear L g_k x in
  let '(M_dg, V_dg) := calculate_triangular_moment_shear L delta_g x in
  MV_Q <- calculate_moving_load_envelope L Q_load x ;;
  let '(M_Q, V_Q) := MV_Q in
  let M_Ed_array :=
    np.add (np.scale 1.35 (np.add M_g M_dg)) (np.scale 1.5 M_Q) in
  let V_Ed_array :=
    np.add (np.scale 1.35 (np.add (np.abs V_g) (np.abs V_dg)))
      (np.scale 1.5 V_Q) in
  max_M_Ed <- np.max M_Ed_array ;;
  max_V_Ed <- np.max V_Ed_array ;;
  let sigma_Ed := (max_M_Ed / Wy p) * 1000 in
  let sigma_Rd := fy in
  let utilization := sigma_Ed / sigma_Rd in
  Ret (mk_results max_M_Ed max_V_Ed sigma_Ed utilization x
         M_Ed_array V_Ed_array).

(** The loop over the profile table.  The state is the pair
    ([best_profile], [results]); both are written only on the pass that
    ends the loop with [break]. *)
Fixpoint profile_loop (x : list Q) (items : list (string * props))
  (st : option string * option results)
  : py (option string * option results) :=
  match items with
  | [] => Ret st
  | (profile_name, p) :: rest =>
      r <- evaluate_profile x p ;;
      if Qle_bool (Util r) 1.0
      then Ret (Some profile_name, Some r)
      else profile_loop x rest st
  end.

(** ** 5. Report *)

Inductive report : Type :=
| Success (best_profile : string) (r : results)
| Error_kein_profil_gefunden.

(** [if best_profile:] holds for a string that is not empty. *)
Definition truthy (best_profile : option string) : bool :=
  match best_profile with
  | None => false
  | Some EmptyString => false
  | Some _ => true
  end.

(** The script from the sample positions to the report, for a profile
    table [catalog] (the program's is [IPE_DATA]). *)
Definition run (catalog : list (string * props)) : py report :=
  x <- np.linspace 0 L 200 ;;
  st <- profile_loop x catalog (None, None) ;;
  match st with
  | (Some best_profile, Some r) =>
      if truthy (Some best_profile) then Ret (Success best_profile r)
      else Ret Error_kein_profil_gefunden
  | _ => Ret Error_kein_profil_gefunden
  end.

End Design.

(** ** Auxiliary definitions for the properties *)

(** Moment and shear at [x] for the load at [a], as the two masks of
    [envelope_step] select them. *)
Definition M_temp_at (L Q_load a x : Q) : Q :=
  let Ra := Q_load * (L - a) / L in
  if np.Qgt_bool x a then Ra * x - Q_load * (x - a)
  else if Qle_bool x a then Ra * x else 0.

Definition V_temp_at (L Q_load a x : Q) : Q :=
  let Ra := Q_load * (L - a) / L in
  if np.Qgt_bool x a then Ra - Q_load
  else if Qle_bool x a then Ra else 0.

(** The running maximum at one sample position [x] over the load
    positions [pos], started at [m]. *)
Definition running_max (f : Q -> Q) (pos : list Q) (m : Q) : Q :=
  fold_left (fun acc a => Qmax acc (Qabs (f a))) pos m.

(** *** The internal forces as the specification words them *)

(** For the load at [a]: reaction [Ra = Q (L - a) / L]; [M = Ra x] for
    [x <= a], and [M = Ra x - Q (x - a)] for [x > a]. *)
Definition spec_moment (L Q_load a x : Q) : Q :=
  let Ra := Q_load * (L - a) / L in
  if Qle_bool x a then Ra * x else Ra * x - Q_load * (x - a).

(** [V = Ra] for [x <= a], and [V = Ra - Q] for [x > a]. *)
Definition spec_shear (L Q_load a x : Q) : Q :=
  let Ra := Q_load * (L - a) / L in
  if Qle_bool x a then Ra else Ra - Q_load.

(** [m] is the largest [|f a|] over the positions [pos]. *)
Definition is_max_abs (f : Q -> Q) (pos : list Q) (m : Q) : Prop :=
  (exists a, In a pos /\ m == Qabs (f a)) /\
  (forall a, In a pos -> Qabs (f a) <= m).

(** The spacing of the load positions: [L / int(10 L)], the step of
    [np.linspace]; a sweep of one position has no step, and the whole
    span stands for it. *)
Definition sweep_step (L : Q) : Q :=
  let n := py_int (L * 10) in
  if (n =? 0)%Z then L else L / inject_Z n.

(** A profile is rejected by the check when its pass of the loop returns
    a utilization above 1. *)
Definition rejected (L delta_g Q_load fy : Q) (x_vals : list Q)
  (e : string * props) : Prop :=
  exists r,
    evaluate_profile L delta_g Q_load fy x_vals (snd e) = Ret r /\
    1.0 < Util r.

(** Inputs outside the ranges of the data model, and a run that rejects
    its inputs by raising. *)
Definition invalid_input (L delta_g Q_load : Q) : Prop :=
  L <= 0 \/ delta_g < 0 \/ Q_load < 0.

Definition rejects (L delta_g Q_load fy : Q) (catalog : list (string * props))
  : Prop :=
  exists e, run L delta_g Q_load fy catalog = Raise e.

(** ** 5. Report: the details of the selected profile *)

(** [d[key]] on the profile table; [None] stands for [KeyError]. *)
Fixpoint getitem (d : list (string * props)) (key : string) : option props :=
  match d with
  | [] => None
  | (k, v) :: d' => if String.eqb k key then Some v else getitem d' key
  end.

(** The weight shown under the selected profile,
    [IPE_DATA[best_profile]['mass']], and the self-weight shown in the
    details, [IPE_DATA[best_profile]['mass'] * 9.81 / 1000]. *)
Definition shown_weight (catalog : list (string * props))
  (best_profile : string) : option Q :=
  option_map mass (getitem catalog best_profile).

Definition shown_self_weight (catalog : list (string * props))
  (best_profile : string) : option Q :=
  option_map (fun p => mass p * 9.81 / 1000) (getitem catalog best_profile).

(** A size at which the program's binary64 arithmetic stays finite: a
    magnitude of at most [10^50].  The exact numbers of this model need no
    such bound; it marks inputs on which the program and the model agree
    up to rounding. *)
Definition moderate (v : Q) : Prop := Qabs v <= 10 ^ 50.

(** ** The triangular-load evaluator on binary64

    The same function on the numbers the program computes with.  numpy
    evaluates [x_vals**2] as [x * x]; the cube is written [x * x * x]
    (numpy calls [pow], equal up to the last bit and alike in
    overflow). *)
Module f64.

Local Open Scope float_scope.

Definition calculate_triangular_moment_shear (L q_max : float)
  (x_vals : list float) : list float * list float :=
  let Ra := (q_max * L) / 6 in
  let V := map (fun x => Ra - (q_max * (x * x)) / (2 * L)) x_vals in
  let M := map (fun x => Ra * x - (q_max * (x * x * x)) / (6 * L)) x_vals in
  (M, V).

End f64.

(** * Properties *)

(** ** Arrays *)

Section Arrays.

Context {A B C D : Type}.

Lemma map2_length (f : A -> B -> C) (xs : list A) (ys : list B) :
  length xs = length ys -> length (np.map2 f xs ys) = length xs.
Proof.
  revert ys; induction xs as [|a xs IH]; intros [|b ys]; simpl;
    try discriminate; auto.
Qed.

Lemma map2_nth (f : A -> B -> C) (xs : list A) (ys : list B)
  (i : nat) (da : A) (db : B) (dc : C) :
  length xs = length ys -> (i < length xs)%nat ->
  nth i (np.map2 f xs ys) dc = f (nth i xs da) (nth i ys db).
Proof.
  revert ys i; induction xs as [|a xs IH]; intros [|b ys] i; simpl;
    try discriminate; try lia.
  intros Hlen Hi. destruct i as [|i]; [reflexivity|].
  apply IH; lia.
Qed.

Lemma map2_map_l (f : A -> B -> C) (g : D -> A) (zs : list D) (ys : list B) :
  np.map2 f (map g zs) ys = np.map2 (fun z y => f (g z) y) zs ys.
Proof.
  revert ys; induction zs as [|z zs IH]; intros [|y ys]; simpl; auto.
  now rewrite IH.
Qed.

Lemma map2_map_r (f : A -> B -> C) (g : D -> B) (xs : list A) (zs : list D) :
  np.map2 f xs (map g zs) = np.map2 (fun a z => f a (g z)) xs zs.
Proof.
  revert zs; induction xs as [|a xs IH]; intros [|z zs]; simpl; auto.
  now rewrite IH.
Qed.

Lemma map2_diag (f : A -> A -> C) (xs : list A) :
  np.map2 f xs xs = map (fun a => f a a) xs.
Proof. induction xs as [|a xs IH]; simpl; [|rewrite IH]; reflexivity. Qed.

End Arrays.

(** Writing through a mask built from the sample positions: the entry at
    a position [x] with [p x] becomes [f x], the others are kept. *)
Lemma assign_select {A B : Type} (p : A -> bool) (f : A -> B)
  (xs : list A) (arr : list B) :
  length arr = length xs ->
  np.assign (map p xs) (map f (np.select (map p xs) xs)) arr
  = np.map2 (fun x old => if p x then f x else old) xs arr.
Proof.
  revert arr; induction xs as [|a xs IH]; intros [|y arr]; simpl;
    try discriminate; auto.
  intros Hlen. destruct (p a); simpl; rewrite IH by lia; reflexivity.
Qed.

Lemma assign_scalar_map2 {A B : Type} (p : A -> bool) (v : B)
  (xs : list A) (arr : list B) :
  length arr = length xs ->
  np.assign_scalar (map p xs) v arr
  = np.map2 (fun x old => if p x then v else old) xs arr.
Proof.
  revert arr; induction xs as [|a xs IH]; intros [|y arr]; simpl;
    try discriminate; auto.
  intros Hlen. destruct (p a); simpl; rewrite IH by lia; reflexivity.
Qed.

Lemma zeros_like_length (xs : list Q) : length (np.zeros_like xs) = length xs.
Proof. apply length_map. Qed.

Lemma map2_zeros_like {C : Type} (f : Q -> Q -> C) (xs : list Q) :
  np.map2 f xs (np.zeros_like xs) = map (fun x => f x 0) xs.
Proof.
  unfold np.zeros_like. rewrite map2_map_r. apply map2_diag.
Qed.

(** ** The moving-load envelope, sample by sample *)

Lemma map2_minus_map (f g : Q -> Q) (l : list Q) :
  np.map2 Qminus (map f l) (map g l) = map (fun x => f x - g x) l.
Proof. rewrite map2_map_l, map2_map_r. apply map2_diag. Qed.

Lemma map2_same_map {A B C : Type} (f : A -> B -> C) (h : A -> B) (xs : list A) :
  np.map2 f xs (map h xs) = map (fun x => f x (h x)) xs.
Proof. rewrite map2_map_r. apply map2_diag. Qed.

Lemma envelope_step_pointwise (L Q_load : Q) (x_vals max_M max_V : list Q) (a : Q) :
  envelope_step L Q_load x_vals (max_M, max_V) a
  = (np.map2 (fun m x => Qmax m (Qabs (M_temp_at L Q_load a x))) max_M x_vals,
     np.map2 (fun v x => Qmax v (Qabs (V_temp_at L Q_load a x))) max_V x_vals).
Proof.
  unfold envelope_step, np.le_mask, np.gt_mask, np.maximum, np.abs.
  rewrite map2_minus_map.
  rewrite (assign_select (fun x => Qle_bool x a))
    by apply zeros_like_length.
  rewrite (assign_scalar_map2 (fun x => Qle_bool x a))
    by apply zeros_like_length.
  rewrite !map2_zeros_like.
  rewrite (assign_select (fun x => np.Qgt_bool x a)
             (fun x => Q_load * (L - a) / L * x - Q_load * (x - a)))
    by (now rewrite length_map).
  rewrite (assign_scalar_map2 (fun x => np.Qgt_bool x a))
    by (now rewrite length_map).
  rewrite !map2_same_map, !map_map, !map2_map_r.
  reflexivity.
Qed.

Lemma map2_map_same {A B C : Type} (f : B -> A -> C) (h : A -> B) (xs : list A) :
  np.map2 f (map h xs) xs = map (fun x => f (h x) x) xs.
Proof. rewrite map2_map_l. apply map2_diag. Qed.

Lemma envelope_fold (L Q_load : Q) (x_vals : list Q) (pos : list Q) :
  forall m0 v0 : Q -> Q,
  fold_left (envelope_step L Q_load x_vals) pos (map m0 x_vals, map v0 x_vals)
  = (map (fun x => running_max (fun a => M_temp_at L Q_load a x) pos (m0 x))
       x_vals,
     map (fun x => running_max (fun a => V_temp_at L Q_load a x) pos (v0 x))
       x_vals).
Proof.
  induction pos as [|a pos IH]; intros m0 v0; cbn [fold_left];
    [reflexivity|].
  rewrite envelope_step_pointwise, !map2_map_same.
  apply IH.
Qed.

(** The envelope, sample by sample: the running maximum, started at
    zero, of the absolute internal forces over the load positions. *)
Lemma moving_load_envelope_pointwise (L Q_load : Q) (x_vals : list Q) :
  calculate_moving_load_envelope L Q_load x_vals
  = (q_positions <- np.linspace 0 L (py_int (L * 10) + 1) ;;
     Ret (map (fun x => running_max (fun a => M_temp_at L Q_load a x)
                          q_positions 0) x_vals,
          map (fun x => running_max (fun a => V_temp_at L Q_load a x)
                          q_positions 0) x_vals)).
Proof.
  unfold calculate_moving_load_envelope, np.zeros_like.
  destruct (np.linspace 0 L (py_int (L * 10) + 1)) as [pos|e];
    cbn [bind]; [|reflexivity].
  now rewrite envelope_fold.
Qed.

Lemma Qgt_bool_negb_le (x a : Q) : np.Qgt_bool x a = negb (Qle_bool x a).
Proof.
  unfold np.Qgt_bool.
  destruct (Qle_bool x a) eqn:Hle; simpl.
  - apply Qle_bool_iff in Hle. pose proof (proj1 (Qle_alt x a) Hle) as Hc.
    destruct (x ?= a); congruence.
  - destruct (x ?= a) eqn:Hc; try reflexivity; exfalso;
      assert (Hle' : x <= a) by (apply Qle_alt; rewrite Hc; discriminate);
      apply Qle_bool_iff in Hle'; congruence.
Qed.

Lemma Qgt_bool_iff (x a : Q) : np.Qgt_bool x a = true <-> a < x.
Proof.
  rewrite Qgt_alt. unfold np.Qgt_bool.
  destruct (x ?= a); split; congruence.
Qed.

(** ** Running maxima *)

Section RunningMax.

Variable f : Q -> Q.

Lemma running_max_init_le (pos : list Q) (m : Q) :
  m <= running_max f pos m.
Proof.
  revert m; induction pos as [|a pos IH]; intros m; simpl.
  - apply Qle_refl.
  - eapply Qle_trans; [apply Q.le_max_l | apply IH].
Qed.

Lemma running_max_ge (pos : list Q) (m a : Q) :
  In a pos -> Qabs (f a) <= running_max f pos m.
Proof.
  revert m; induction pos as [|b pos IH]; intros m; simpl; [tauto|].
  intros [->|Hin].
  - eapply Qle_trans; [apply Q.le_max_r | apply running_max_init_le].
  - now apply IH.
Qed.

Lemma running_max_le (pos : list Q) (m bound : Q) :
  m <= bound -> (forall a, In a pos -> Qabs (f a) <= bound) ->
  running_max f pos m <= bound.
Proof.
  revert m; induction pos as [|b pos IH]; intros m Hm Hall; simpl; [exact Hm|].
  apply IH.
  - apply Q.max_lub; [exact Hm | apply Hall; now left].
  - intros a Ha. apply Hall. now right.
Qed.

Lemma running_max_attained (pos : list Q) (m : Q) :
  running_max f pos m == m \/
  exists a, In a pos /\ running_max f pos m == Qabs (f a).
Proof.
  revert m; induction pos as [|b pos IH]; intros m; simpl.
  - left. reflexivity.
  - destruct (IH (Qmax m (Qabs (f b)))) as [Heq | (a & Ha & Heq)].
    + destruct (Q.max_dec m (Qabs (f b))) as [Hm | Hm].
      * left. now rewrite Heq.
      * right. exists b. split; [now left | now rewrite Heq].
    + right. exists a. split; [now right | exact Heq].
Qed.

(** Started at zero over at least one position, the running maximum is
    the largest absolute value over the positions. *)
Lemma running_max_zero_attained (pos : list Q) :
  pos <> [] ->
  exists a, In a pos /\ running_max f pos 0 == Qabs (f a).
Proof.
  intros Hne.
  destruct (running_max_attained pos 0) as [Heq | Hex]; [|exact Hex].
  destruct pos as [|b pos]; [congruence|].
  exists b. split; [now left|].
  apply Qle_antisym.
  - rewrite Heq. apply Qabs_nonneg.
  - apply running_max_ge. now left.
Qed.

End RunningMax.

(** ** [np.linspace] *)

Lemma nth_map_lt {A B : Type} (f : A -> B) (l : list A) (i : nat) (d : A) (d' : B) :
  (i < length l)%nat -> nth i (map f l) d' = f (nth i l d).
Proof.
  intros Hi. rewrite (nth_indep _ d' (f d)) by (now rewrite length_map).
  apply map_nth.
Qed.

Lemma arange_from_length (k : Z) (n : nat) : length (np.arange_from k n) = n.
Proof. revert k; induction n as [|n IH]; intros k; simpl; auto. Qed.

Lemma arange_from_nth (k : Z) (n i : nat) :
  (i < n)%nat -> nth i (np.arange_from k n) 0 = inject_Z (k + Z.of_nat i).
Proof.
  revert k i; induction n as [|n IH]; intros k i Hi; [lia|].
  destruct i as [|i]; simpl.
  - now rewrite Z.add_0_r.
  - rewrite IH by lia. f_equal. lia.
Qed.

Lemma set_last_length (y : list Q) (v : Q) : length (np.set_last y v) = length y.
Proof.
  induction y as [|h [|h' t] IH]; simpl in *; auto.
Qed.

Lemma set_last_nth (y : list Q) (v : Q) (i : nat) :
  (i < length y)%nat ->
  nth i (np.set_last y v) 0
  = if (S i =? length y)%nat then v else nth i y 0.
Proof.
  revert i; induction y as [|h [|h' t] IH]; intros i Hi; simpl in Hi; [lia| |].
  - destruct i; [reflexivity | lia].
  - destruct i as [|i]; [reflexivity|].
    change (np.set_last (h :: h' :: t) v) with (h :: np.set_last (h' :: t) v).
    cbn [nth]. rewrite IH by (simpl; lia). reflexivity.
Qed.

(** [linspace] with a count that is not negative returns [num] values:
    [start] alone for [num = 1], else the values
    [start + i * (stop - start) / (num - 1)]. *)
Lemma linspace_spec (start stop : Q) (num : Z) :
  (0 <= num)%Z ->
  exists ys,
    np.linspace start stop num = Ret ys /\
    length ys = Z.to_nat num /\
    forall i, (i < Z.to_nat num)%nat ->
      nth i ys 0 ==
      if (num =? 1)%Z then start
      else start + inject_Z (Z.of_nat i) * (stop - start) / inject_Z (num - 1).
Proof.
  intros Hnum. unfold np.linspace.
  destruct (num <? 0)%Z eqn:Hneg; [apply Z.ltb_lt in Hneg; lia|].
  eexists. split; [reflexivity|].
  set (y0 := np.arange (Z.to_nat num)).
  assert (Hy0 : length y0 = Z.to_nat num) by apply arange_from_length.
  assert (Hy0n : forall i, (i < Z.to_nat num)%nat ->
                           nth i y0 0 = inject_Z (Z.of_nat i)).
  { intros i Hi. unfold y0, np.arange. now rewrite arange_from_nth. }
  destruct (0 <? num - 1)%Z eqn:Hdiv.
  - apply Z.ltb_lt in Hdiv.
    assert (Hd : ~ inject_Z (num - 1) == 0).
    { intros H. assert (0 < inject_Z (num - 1)).
      { change 0 with (inject_Z 0). rewrite <- Zlt_Qlt. lia. } lra. }
    replace (1 <? num)%Z with true by (symmetry; apply Z.ltb_lt; lia).
    replace (num =? 1)%Z with false by (symmetry; apply Z.eqb_neq; lia).
    destruct (Qeq_bool ((stop - start) / inject_Z (num - 1)) 0) eqn:Hstep.
    + split; [now rewrite set_last_length, !length_map|].
      intros i Hi. rewrite set_last_nth by (now rewrite !length_map, Hy0).
      rewrite !length_map, Hy0.
      destruct (S i =? Z.to_nat num)%nat eqn:Hlast.
      * apply Nat.eqb_eq in Hlast.
        replace (Z.of_nat i) with (num - 1)%Z by lia. field. exact Hd.
      * rewrite (nth_map_lt _ _ _ 0) by (now rewrite length_map, Hy0).
        rewrite (nth_map_lt _ _ _ 0) by (now rewrite Hy0).
        rewrite Hy0n by exact Hi. field. exact Hd.
    + split; [now rewrite set_last_length, !length_map|].
      intros i Hi. rewrite set_last_nth by (now rewrite !length_map, Hy0).
      rewrite !length_map, Hy0.
      destruct (S i =? Z.to_nat num)%nat eqn:Hlast.
      * apply Nat.eqb_eq in Hlast.
        replace (Z.of_nat i) with (num - 1)%Z by lia. field. exact Hd.
      * rewrite (nth_map_lt _ _ _ 0) by (now rewrite length_map, Hy0).
        rewrite (nth_map_lt _ _ _ 0) by (now rewrite Hy0).
        rewrite Hy0n by exact Hi. field. exact Hd.
  - apply Z.ltb_ge in Hdiv.
    replace (1 <? num)%Z with false by (symmetry; apply Z.ltb_ge; lia).
    split; [now rewrite !length_map|].
    intros i Hi.
    rewrite (nth_map_lt _ _ _ 0) by (now rewrite length_map, Hy0).
    rewrite (nth_map_lt _ _ _ 0) by (now rewrite Hy0).
    rewrite Hy0n by exact Hi.
    assert (num = 1%Z /\ i = 0%nat) as [-> ->] by lia.
    simpl. ring.
Qed.

Lemma linspace_raises (start stop : Q) (num : Z) :
  (num < 0)%Z -> np.linspace start stop num = Raise ValueError.
Proof.
  intros H. unfold np.linspace.
  now replace (num <? 0)%Z with true by (symmetry; apply Z.ltb_lt; lia).
Qed.

(** ** [int] and the number of load positions *)

Lemma py_int_nonneg (v : Q) : 0 <= v -> py_int v = Qfloor v.
Proof.
  destruct v as [n d]. unfold Qle, py_int, Qfloor; simpl.
  intros H. apply Z.quot_div_nonneg; lia.
Qed.

Lemma py_int_bounds (v : Q) :
  0 <= v ->
  (0 <= py_int v)%Z /\ inject_Z (py_int v) <= v /\ v < inject_Z (py_int v) + 1.
Proof.
  intros Hv. rewrite (py_int_nonneg v Hv). split; [|split].
  - rewrite <- (Qfloor_Z 0). now apply Qfloor_resp_le.
  - apply Qfloor_le.
  - change 1 with (inject_Z 1). rewrite <- inject_Z_plus. apply Qlt_floor.
Qed.

(** ** The envelope against its specification *)

Lemma M_temp_at_spec (L Q_load a x : Q) :
  M_temp_at L Q_load a x = spec_moment L Q_load a x.
Proof.
  unfold M_temp_at, spec_moment. rewrite Qgt_bool_negb_le.
  now destruct (Qle_bool x a).
Qed.

Lemma V_temp_at_spec (L Q_load a x : Q) :
  V_temp_at L Q_load a x = spec_shear L Q_load a x.
Proof.
  unfold V_temp_at, spec_shear. rewrite Qgt_bool_negb_le.
  now destruct (Qle_bool x a).
Qed.

Lemma spec_moment_comp (L Q_load x a a' : Q) :
  a == a' -> spec_moment L Q_load a x == spec_moment L Q_load a' x.
Proof.
  intros Ha. unfold spec_moment.
  rewrite (Qleb_comp x x (Qeq_refl x) a a' Ha).
  destruct (Qle_bool x a'); now rewrite Ha.
Qed.

Lemma spec_shear_comp (L Q_load x a a' : Q) :
  a == a' -> spec_shear L Q_load a x == spec_shear L Q_load a' x.
Proof.
  intros Ha. unfold spec_shear.
  rewrite (Qleb_comp x x (Qeq_refl x) a a' Ha).
  destruct (Qle_bool x a'); now rewrite Ha.
Qed.

Lemma running_max_is_max_abs (f : Q -> Q) (pos : list Q) :
  pos <> [] -> is_max_abs f pos (running_max f pos 0).
Proof.
  intros Hne. split.
  - now apply running_max_zero_attained.
  - intros a Ha. now apply running_max_ge.
Qed.

(** ** The closed-form evaluators *)

(** C7.  The uniform-load evaluator returns, at each sample position
    [x], the shear [q L / 2 - q x] and the moment [(q x / 2) (L - x)];
    both arrays are aligned with the sample positions.  (The formulas do
    not depend on the ranges [L > 0], [q >= 0], [0 <= x <= L] of the
    claim.) *)
Theorem distributed_moment_shear_formulas (L q : Q) (x_vals : list Q) :
  length (fst (calculate_distributed_moment_shear L q x_vals)) = length x_vals /\
  length (snd (calculate_distributed_moment_shear L q x_vals)) = length x_vals /\
  forall i, (i < length x_vals)%nat ->
    nth i (snd (calculate_distributed_moment_shear L q x_vals)) 0
    == q * L / 2 - q * nth i x_vals 0 /\
    nth i (fst (calculate_distributed_moment_shear L q x_vals)) 0
    == (q * nth i x_vals 0 / 2) * (L - nth i x_vals 0).
Proof.
  unfold calculate_distributed_moment_shear; cbn [fst snd].
  rewrite !length_map. do 2 (split; [reflexivity|]).
  intros i Hi. rewrite !(nth_map_lt _ _ _ 0) by exact Hi.
  split; reflexivity.
Qed.

Lemma distributed_moment_shear_formulas_witness :
  nth 1 (snd (calculate_distributed_moment_shear 2 3 [0; 1; 2])) 0
  == 3 * 2 / 2 - 3 * 1 /\
  nth 1 (fst (calculate_distributed_moment_shear 2 3 [0; 1; 2])) 0
  == (3 * 1 / 2) * (2 - 1).
Proof.
  destruct (distributed_moment_shear_formulas 2 3 [0; 1; 2])
    as (_ & _ & Hnth).
  apply (Hnth 1%nat). simpl. lia.
Defined.

(** C8.  For [L > 0] the triangular-load evaluator uses the reaction
    [Ra = q_max L / 6] and returns, at each sample position [x], the
    shear [Ra - q_max x^2 / (2 L)] and the moment
    [Ra x - q_max x^3 / (6 L)]; at a sample [x = L] the moment is 0. *)
Theorem triangular_moment_shear_formulas (L q_max : Q) (x_vals : list Q) :
  0 < L ->
  let Ra := q_max * L / 6 in
  let M := fst (calculate_triangular_moment_shear L q_max x_vals) in
  let V := snd (calculate_triangular_moment_shear L q_max x_vals) in
  length M = length x_vals /\
  length V = length x_vals /\
  forall i, (i < length x_vals)%nat ->
    nth i V 0 == Ra - q_max * (nth i x_vals 0) ^ 2 / (2 * L) /\
    nth i M 0 == Ra * nth i x_vals 0 - q_max * (nth i x_vals 0) ^ 3 / (6 * L) /\
    (nth i x_vals 0 == L -> nth i M 0 == 0).
Proof.
  intros HL. unfold calculate_triangular_moment_shear; cbn [fst snd].
  rewrite !length_map. do 2 (split; [reflexivity|]).
  intros i Hi. rewrite !(nth_map_lt _ _ _ 0) by exact Hi.
  split; [reflexivity|]. split; [reflexivity|].
  intros Hx. rewrite Hx. field. lra.
Qed.

Lemma triangular_moment_shear_formulas_witness :
  nth 1 (snd (calculate_triangular_moment_shear 2 3 [0; 1; 2])) 0
  == 3 * 2 / 6 - 3 * 1 ^ 2 / (2 * 2) /\
  nth 1 (fst (calculate_triangular_moment_shear 2 3 [0; 1; 2])) 0
  == 3 * 2 / 6 * 1 - 3 * 1 ^ 3 / (6 * 2) /\
  nth 2 (fst (calculate_triangular_moment_shear 2 3 [0; 1; 2])) 0 == 0.
Proof.
  destruct (triangular_moment_shear_formulas 2 3 [0; 1; 2])
    as (_ & _ & Hnth); [reflexivity|].
  destruct (Hnth 1%nat) as (HV & HM & _); [simpl; lia|].
  destruct (Hnth 2%nat) as (_ & _ & HL); [simpl; lia|].
  split; [exact HV|]. split; [exact HM|]. apply HL. reflexivity.
Defined.

(** ** Zero loads *)

Lemma Forall_map_intro {A B : Type} (P : B -> Prop) (f : A -> B) (l : list A) :
  (forall a, P (f a)) -> Forall P (map f l).
Proof. intros H. induction l; simpl; constructor; auto. Qed.





(** ** Spans shorter than one sweep interval *)

Lemma short_span_sweep (L : Q) :
  0 < L -> L < 0.1 -> py_int (L * 10) = 0%Z.
Proof.
  intros H0 H1.
  assert (Hv : 0 <= L * 10) by lra.
  destruct (py_int_bounds _ Hv) as (Hn & Hle & _).
  assert (Hlt : inject_Z (py_int (L * 10)) < inject_Z 1).
  { change (inject_Z 1) with 1. lra. }
  rewrite <- Zlt_Qlt in Hlt. lia.
Qed.

(** C10.  For [0 < L < 0.1] the sweep has the single position [a = 0];
    for a load [Q >= 0] the moment envelope is zero at every sample
    position [x >= 0], and the shear envelope is [Q] at a sample [x = 0]
    and zero at a sample [x > 0]. *)
Theorem short_span_envelope_degenerates (L Q_load : Q) (x_vals : list Q) :
  0 < L -> L < 0.1 -> 0 <= Q_load ->
  Forall (fun x => 0 <= x) x_vals ->
  exists q_positions max_M max_V,
    np.linspace 0 L (py_int (L * 10) + 1) = Ret q_positions /\
    Forall2 Qeq q_positions [0] /\
    calculate_moving_load_envelope L Q_load x_vals = Ret (max_M, max_V) /\
    length max_M = length x_vals /\
    length max_V = length x_vals /\
    forall i, (i < length x_vals)%nat ->
      nth i max_M 0 == 0 /\
      (nth i x_vals 0 == 0 -> nth i max_V 0 == Q_load) /\
      (0 < nth i x_vals 0 -> nth i max_V 0 == 0).
Proof.
  intros H0 H1 HQ Hx.
  rewrite moving_load_envelope_pointwise.
  rewrite (short_span_sweep L H0 H1).
  assert (Hlin : np.linspace 0 L (0 + 1) = Ret [0 * (L - 0) + 0])
    by reflexivity.
  rewrite Hlin. cbn [bind].
  do 3 eexists. split; [reflexivity|].
  split; [constructor; [ring | constructor]|].
  split; [reflexivity|]. rewrite !length_map.
  do 2 (split; [reflexivity|]).
  intros i Hi. rewrite !(nth_map_lt _ _ _ 0) by exact Hi.
  assert (Hxi : 0 <= nth i x_vals 0).
  { rewrite Forall_forall in Hx. apply Hx. now apply nth_In. }
  set (x := nth i x_vals 0) in *.
  set (a := 0 * (L - 0) + 0).
  assert (Ha : a == 0) by (unfold a; ring).
  unfold running_max; cbn [fold_left].
  rewrite M_temp_at_spec, V_temp_at_spec.
  rewrite (spec_moment_comp L Q_load x a 0 Ha).
  rewrite (spec_shear_comp L Q_load x a 0 Ha).
  unfold spec_moment, spec_shear.
  destruct (Qle_bool x 0) eqn:Hle.
  - apply Qle_bool_iff in Hle.
    assert (Hx0 : x == 0) by lra.
    split; [|split].
    + rewrite Hx0.
      setoid_replace (Q_load * (L - 0) / L * 0) with 0 by (field; lra).
      reflexivity.
    + intros _.
      setoid_replace (Q_load * (L - 0) / L) with Q_load by (field; lra).
      rewrite Qabs_pos by exact HQ. now apply Q.max_r.
    + intros Hpos. lra.
  - assert (Hpos : 0 < x).
    { apply Qnot_le_lt. intros Hc. apply Qle_bool_iff in Hc. congruence. }
    split; [|split].
    + setoid_replace (Q_load * (L - 0) / L * x - Q_load * (x - 0)) with 0
        by (field; lra).
      reflexivity.
    + intros Hx0. lra.
    + intros _.
      setoid_replace (Q_load * (L - 0) / L - Q_load) with 0 by (field; lra).
      reflexivity.
Qed.

Lemma short_span_envelope_degenerates_witness :
  exists q_positions max_M max_V,
    np.linspace 0 0.05 (py_int (0.05 * 10) + 1) = Ret q_positions /\
    Forall2 Qeq q_positions [0] /\
    calculate_moving_load_envelope 0.05 4 [0; 0.01; 0.05] = Ret (max_M, max_V) /\
    nth 0 max_M 0 == 0 /\ nth 0 max_V 0 == 4 /\
    nth 1 max_M 0 == 0 /\ nth 1 max_V 0 == 0.
Proof.
  destruct (short_span_envelope_degenerates 0.05 4 [0; 0.01; 0.05])
    as (pos & max_M & max_V & Hlin & Hpos & Henv & _ & _ & Hnth);
    try reflexivity.
  - discriminate.
  - repeat constructor; discriminate.
  - exists pos, max_M, max_V.
    destruct (Hnth 0%nat) as (HM0 & HV0 & _); [simpl; lia|].
    destruct (Hnth 1%nat) as (HM1 & _ & HV1); [simpl; lia|].
    repeat split; try assumption.
    + apply HV0. reflexivity.
    + apply HV1. reflexivity.
Defined.

(** ** [np.max] *)

Lemma max_from_init_le (xs : list Q) (m : Q) : m <= np.max_from m xs.
Proof.
  revert m; induction xs as [|x xs IH]; intros m; simpl.
  - apply Qle_refl.
  - eapply Qle_trans; [apply Q.le_max_l | apply IH].
Qed.

Lemma max_from_ge (xs : list Q) (m v : Q) :
  In v xs -> v <= np.max_from m xs.
Proof.
  revert m; induction xs as [|x xs IH]; intros m; simpl; [tauto|].
  intros [->|Hin].
  - eapply Qle_trans; [apply Q.le_max_r | apply max_from_init_le].
  - now apply IH.
Qed.

Lemma max_from_le (xs : list Q) (m bound : Q) :
  m <= bound -> (forall v, In v xs -> v <= bound) ->
  np.max_from m xs <= bound.
Proof.
  revert m; induction xs as [|x xs IH]; intros m Hm Hall; simpl; [exact Hm|].
  apply IH.
  - apply Q.max_lub; [exact Hm | apply Hall; now left].
  - intros v Hv. apply Hall. now right.
Qed.

Lemma max_from_attained (xs : list Q) (m : Q) :
  np.max_from m xs == m \/ exists v, In v xs /\ np.max_from m xs == v.
Proof.
  revert m; induction xs as [|x xs IH]; intros m; simpl.
  - left. reflexivity.
  - destruct (IH (Qmax m x)) as [Heq | (v & Hv & Heq)].
    + destruct (Q.max_dec m x) as [Hm | Hm].
      * left. now rewrite Heq.
      * right. exists x. split; [now left | now rewrite Heq].
    + right. exists v. split; [now right | exact Heq].
Qed.

Lemma np_max_returns (xs : list Q) :
  xs <> [] -> exists m, np.max xs = Ret m.
Proof. destruct xs as [|x xs]; [congruence|]. intros _. now eexists. Qed.

Lemma np_max_ge (xs : list Q) (m v : Q) :
  np.max xs = Ret m -> In v xs -> v <= m.
Proof.
  destruct xs as [|x xs]; simpl; [discriminate|].
  intros [= <-] [->|Hin].
  - apply max_from_init_le.
  - now apply max_from_ge.
Qed.

Lemma np_max_le (xs : list Q) (m bound : Q) :
  np.max xs = Ret m -> (forall v, In v xs -> v <= bound) -> m <= bound.
Proof.
  destruct xs as [|x xs]; simpl; [discriminate|].
  intros [= <-] Hall. apply max_from_le.
  - apply Hall. now left.
  - intros v Hv. apply Hall. now right.
Qed.

Lemma np_max_attained (xs : list Q) (m : Q) :
  np.max xs = Ret m -> exists v, In v xs /\ m == v.
Proof.
  destruct xs as [|x xs]; simpl; [discriminate|].
  intros [= <-].
  destruct (max_from_attained xs x) as [Heq | (v & Hv & Heq)].
  - exists x. auto.
  - exists v. auto.
Qed.

(** ** The largest envelope moment *)

Lemma Qsquare_nonneg (u : Q) : 0 <= u * u.
Proof. nra. Qed.

Section MomentBounds.

Variables (L Q_load : Q).
Hypothesis HL : 0 < L.
Hypothesis HQ : 0 <= Q_load.

(** With load and sample inside the span the moment is the familiar
    [Q x (L - a) / L] left of the load and [Q a (L - x) / L] right of
    it. *)
Lemma spec_moment_left (a x : Q) :
  x <= a -> spec_moment L Q_load a x == Q_load * x * (L - a) / L.
Proof.
  intros Hxa. unfold spec_moment.
  replace (Qle_bool x a) with true by (symmetry; now apply Qle_bool_iff).
  field. lra.
Qed.

Lemma spec_moment_right (a x : Q) :
  a < x -> spec_moment L Q_load a x == Q_load * a * (L - x) / L.
Proof.
  intros Hax. unfold spec_moment.
  destruct (Qle_bool x a) eqn:Hle.
  - apply Qle_bool_iff in Hle. lra.
  - field. lra.
Qed.

Lemma quarter_square (u v : Q) : 4 * (u * (L - v)) <= L * L + 4 * (u * (u - v)).
Proof.
  pose proof (Qsquare_nonneg (L - 2 * u)) as H.
  lra.
Qed.

Lemma spec_moment_bounds (a x : Q) :
  0 <= a <= L -> 0 <= x <= L ->
  0 <= spec_moment L Q_load a x <= Q_load * L / 4.
Proof.
  intros [Ha0 HaL] [Hx0 HxL].
  destruct (Qlt_le_dec a x) as [Hax | Hxa].
  - rewrite (spec_moment_right a x Hax). split.
    + apply Qle_shift_div_l; [exact HL|].
      assert (0 <= Q_load * a) by (apply Qmult_le_0_compat; lra).
      assert (0 <= Q_load * a * (L - x)) by (apply Qmult_le_0_compat; lra).
      lra.
    + apply Qle_shift_div_r; [exact HL|].
      pose proof (quarter_square a x) as H.
      assert (H1 : 0 <= a * (x - a)) by (apply Qmult_le_0_compat; lra).
      assert (H2 : 0 <= Q_load * (L * L - 4 * (a * (L - x))))
        by (apply Qmult_le_0_compat; lra).
      setoid_replace (Q_load * L / 4 * L) with ((1 # 4) * (Q_load * (L * L)))
        by field.
      lra.
  - rewrite (spec_moment_left a x Hxa). split.
    + apply Qle_shift_div_l; [exact HL|].
      assert (0 <= Q_load * x) by (apply Qmult_le_0_compat; lra).
      assert (0 <= Q_load * x * (L - a)) by (apply Qmult_le_0_compat; lra).
      lra.
    + apply Qle_shift_div_r; [exact HL|].
      pose proof (quarter_square x a) as H.
      assert (H1 : 0 <= x * (a - x)) by (apply Qmult_le_0_compat; lra).
      assert (H2 : 0 <= Q_load * (L * L - 4 * (x * (L - a))))
        by (apply Qmult_le_0_compat; lra).
      setoid_replace (Q_load * L / 4 * L) with ((1 # 4) * (Q_load * (L * L)))
        by field.
      lra.
Qed.

End MomentBounds.

(** Values of a grid [i * L / d], [0 <= i <= d], lie in the span. *)
Lemma grid_value_in_span (L : Q) (i d : Z) :
  0 < L -> (0 < d)%Z -> (0 <= i <= d)%Z ->
  0 <= 0 + inject_Z i * (L - 0) / inject_Z d <= L.
Proof.
  intros HL Hd [Hi0 Hid].
  assert (Hdq : 0 < inject_Z d).
  { change 0 with (inject_Z 0). rewrite <- Zlt_Qlt. lia. }
  assert (Hiq0 : 0 <= inject_Z i).
  { change 0 with (inject_Z 0). rewrite <- Zle_Qle. lia. }
  assert (Hiqd : inject_Z i <= inject_Z d) by (rewrite <- Zle_Qle; lia).
  setoid_replace (0 + inject_Z i * (L - 0) / inject_Z d)
    with (inject_Z i * L / inject_Z d) by (field; lra).
  split.
  - apply Qle_shift_div_l; [exact Hdq|].
    assert (0 <= inject_Z i * L) by (apply Qmult_le_0_compat; lra). lra.
  - apply Qle_shift_div_r; [exact Hdq|].
    assert (0 <= (inject_Z d - inject_Z i) * L)
      by (apply Qmult_le_0_compat; lra).
    lra.
Qed.

Section SampleGrid.

Variable L : Q.
Hypothesis HL : 0 < L.

(** The 200 sample positions [x] of the program. *)
Lemma sample_positions :
  exists x_vals,
    np.linspace 0 L 200 = Ret x_vals /\
    length x_vals = 200%nat /\
    (forall i, (i < 200)%nat ->
       nth i x_vals 0 == inject_Z (Z.of_nat i) * L / 199) /\
    (forall x, In x x_vals -> 0 <= x <= L).
Proof.
  destruct (linspace_spec 0 L 200) as (xs & Hlin & Hlen & Hnth); [lia|].
  change (Z.to_nat 200) with 200%nat in *.
  cbn [Z.eqb Pos.eqb Z.sub Z.add Z.opp Z.pos_sub Pos.pred_double] in Hnth.
  exists xs. split; [exact Hlin|]. split; [exact Hlen|]. split.
  - intros i Hi. rewrite (Hnth i Hi). change (inject_Z 199) with 199.
    field.
  - intros x Hx. destruct (In_nth _ _ 0 Hx) as (i & Hi & <-).
    rewrite Hlen in Hi. rewrite (Hnth i Hi).
    apply grid_value_in_span; [exact HL | lia | lia].
Qed.

(** The load positions: [n + 1] of them for [n = int(10 L)], all in the
    span; for [n >= 1] the position [k] is [k L / n]. *)
Lemma load_positions :
  exists q_positions,
    np.linspace 0 L (py_int (L * 10) + 1) = Ret q_positions /\
    length q_positions = S (Z.to_nat (py_int (L * 10))) /\
    (forall k, (k <= Z.to_nat (py_int (L * 10)))%nat ->
       nth k q_positions 0 ==
       if (py_int (L * 10) =? 0)%Z then 0
       else inject_Z (Z.of_nat k) * L / inject_Z (py_int (L * 10))) /\
    (forall a, In a q_positions -> 0 <= a <= L).
Proof.
  assert (Hv : 0 <= L * 10) by lra.
  destruct (py_int_bounds _ Hv) as (Hn & _ & _).
  set (n := py_int (L * 10)) in *.
  destruct (linspace_spec 0 L (n + 1)) as (pos & Hlin & Hlen & Hnth); [lia|].
  replace (Z.to_nat (n + 1)) with (S (Z.to_nat n)) in * by lia.
  replace (n + 1 - 1)%Z with n in Hnth by lia.
  assert (Hnth' : forall k, (k <= Z.to_nat n)%nat ->
            nth k pos 0 ==
            if (n =? 0)%Z then 0
            else inject_Z (Z.of_nat k) * L / inject_Z n).
  { intros k Hk. rewrite (Hnth k) by lia.
    destruct (Z.eqb_spec n 0) as [Hz | Hnz].
    - replace (n + 1 =? 1)%Z with true by (symmetry; apply Z.eqb_eq; lia).
      reflexivity.
    - replace (n + 1 =? 1)%Z with false by (symmetry; apply Z.eqb_neq; lia).
      assert (0 < inject_Z n).
      { change 0 with (inject_Z 0). rewrite <- Zlt_Qlt. lia. }
      field. lra. }
  exists pos. split; [exact Hlin|]. split; [exact Hlen|].
  split; [exact Hnth'|].
  intros a Ha. destruct (In_nth _ _ 0 Ha) as (k & Hk & <-).
  rewrite Hlen in Hk. rewrite (Hnth' k) by lia.
  destruct (Z.eqb_spec n 0) as [Hz | Hnz]; [lra|].
  pose proof (grid_value_in_span L (Z.of_nat k) n HL) as Hg.
  setoid_replace (0 + inject_Z (Z.of_nat k) * (L - 0) / inject_Z n)
    with (inject_Z (Z.of_nat k) * L / inject_Z n) in Hg.
  - apply Hg; lia.
  - assert (0 < inject_Z n).
    { change 0 with (inject_Z 0). rewrite <- Zlt_Qlt. lia. }
    field. lra.
Qed.

Lemma sweep_step_bound : 0 < sweep_step L /\ sweep_step L <= 2 * 0.1.
Proof.
  assert (Hv : 0 <= L * 10) by lra.
  destruct (py_int_bounds _ Hv) as (Hn & _ & Hlt).
  unfold sweep_step. set (n := py_int (L * 10)) in *.
  destruct (Z.eqb_spec n 0) as [Hz | Hnz].
  - rewrite Hz in Hlt. change (inject_Z 0) with 0 in Hlt. lra.
  - assert (H1 : inject_Z 1 <= inject_Z n) by (rewrite <- Zle_Qle; lia).
    change (inject_Z 1) with 1 in H1.
    split.
    + apply Qlt_shift_div_l; lra.
    + apply Qle_shift_div_r; lra.
Qed.

End SampleGrid.

(** C5.  For a span [L > 0] (and inputs of moderate size) the envelope
    evaluator sweeps the load over the positions that [np.linspace]
    returns: [int(10 L) + 1] of them, at least one, from 0 to [L] and
    inside the span.  At each sample position it returns the maximum over
    these positions of [|M|] and of [|V|], where the load at [a] gives the
    reaction [Ra = Q (L - a) / L], [V = Ra] and [M = Ra x] for [x <= a],
    [V = Ra - Q] and [M = Ra x - Q (x - a)] for [x > a]. *)
Theorem moving_load_envelope_is_pointwise_maximum
  (L Q_load : Q) (x_vals : list Q) :
  0 < L -> moderate L -> moderate Q_load -> Forall moderate x_vals ->
  exists q_positions max_M max_V,
    np.linspace 0 L (py_int (L * 10) + 1) = Ret q_positions /\
    length q_positions = S (Z.to_nat (py_int (L * 10))) /\
    nth 0 q_positions 0 == 0 /\
    ((0 < py_int (L * 10))%Z ->
     nth (Z.to_nat (py_int (L * 10))) q_positions 0 == L) /\
    (forall a, In a q_positions -> 0 <= a <= L) /\
    calculate_moving_load_envelope L Q_load x_vals = Ret (max_M, max_V) /\
    length max_M = length x_vals /\
    length max_V = length x_vals /\
    forall i, (i < length x_vals)%nat ->
      is_max_abs (fun a => spec_moment L Q_load a (nth i x_vals 0))
        q_positions (nth i max_M 0) /\
      is_max_abs (fun a => spec_shear L Q_load a (nth i x_vals 0))
        q_positions (nth i max_V 0).
Proof.
  intros HL _ _ _.
  destruct (load_positions L HL) as (pos & Hpos & Hplen & Hpnth & Hpin).
  assert (Hn : (0 <= py_int (L * 10))%Z).
  { destruct (py_int_bounds (L * 10)) as (Hn & _); [lra | exact Hn]. }
  rewrite moving_load_envelope_pointwise, Hpos. cbn [bind].
  exists pos. do 2 eexists. split; [reflexivity|].
  split; [exact Hplen|]. split; [|split; [|split; [exact Hpin|]]].
  - rewrite (Hpnth 0%nat) by lia.
    destruct (py_int (L * 10) =? 0)%Z; [reflexivity|].
    change (inject_Z (Z.of_nat 0)) with 0. unfold Qdiv. ring.
  - intros Hpos1. rewrite (Hpnth (Z.to_nat (py_int (L * 10)))) by lia.
    destruct (Z.eqb_spec (py_int (L * 10)) 0) as [Hz | _]; [lia|].
    rewrite Z2Nat.id by lia.
    assert (0 < inject_Z (py_int (L * 10))).
    { change 0 with (inject_Z 0). rewrite <- Zlt_Qlt. lia. }
    field. lra.
  - split; [reflexivity|]. rewrite !length_map.
    do 2 (split; [reflexivity|]).
    assert (Hne : pos <> []).
    { intros ->. simpl in Hplen. discriminate. }
    intros i Hi. rewrite !(nth_map_lt _ _ _ 0) by exact Hi.
    split.
    + pose proof (running_max_is_max_abs
                    (fun a => M_temp_at L Q_load a (nth i x_vals 0)) pos Hne)
        as [(a & Ha & Hm) Hub].
      split.
      * exists a. split; [exact Ha|]. now rewrite <- M_temp_at_spec.
      * intros a' Ha'. rewrite <- M_temp_at_spec. now apply Hub.
    + pose proof (running_max_is_max_abs
                    (fun a => V_temp_at L Q_load a (nth i x_vals 0)) pos Hne)
        as [(a & Ha & Hm) Hub].
      split.
      * exists a. split; [exact Ha|]. now rewrite <- V_temp_at_spec.
      * intros a' Ha'. rewrite <- V_temp_at_spec. now apply Hub.
Qed.

Lemma moving_load_envelope_is_pointwise_maximum_witness :
  exists q_positions max_M max_V,
    np.linspace 0 0.25 (py_int (0.25 * 10) + 1) = Ret q_positions /\
    length q_positions = 3%nat /\
    nth 2 q_positions 0 == 0.25 /\
    calculate_moving_load_envelope 0.25 4 [0; 0.1; 0.125; 0.2; 0.25]
    = Ret (max_M, max_V) /\
    is_max_abs (fun a => spec_moment 0.25 4 a 0.125)
      q_positions (nth 2 max_M 0) /\
    is_max_abs (fun a => spec_shear 0.25 4 a 0.125)
      q_positions (nth 2 max_V 0).
Proof.
  destruct (moving_load_envelope_is_pointwise_maximum 0.25 4
              [0; 0.1; 0.125; 0.2; 0.25])
    as (pos & max_M & max_V & Hpos & Hlen & _ & Hlast & _ & Henv & _ & _ & Hmax);
    [ reflexivity
    | unfold moderate; vm_compute; discriminate
    | unfold moderate; vm_compute; discriminate
    | repeat constructor; unfold moderate; vm_compute; discriminate | ].
  exists pos, max_M, max_V. split; [exact Hpos|]. split; [exact Hlen|].
  split; [apply Hlast; reflexivity|]. split; [exact Henv|].
  apply (Hmax 2%nat). simpl. lia.
Defined.

(** C6.  For a span [L > 0] and a load [Q >= 0], over the program's 200
    sample positions, the largest entry of the moving-load moment
    envelope is [Q L / 4] up to a tolerance fixed by the two grids: it
    never exceeds [Q L / 4], and it falls short of it by at most
    [Q (s + L / 199) / 4], where [s] is the spacing of the load positions
    (at most twice the nominal [0.1]) and [L / 199] the spacing of the
    samples. *)
Theorem moving_load_max_moment (L Q_load : Q) :
  0 < L -> 0 <= Q_load ->
  exists x_vals max_M max_V m,
    np.linspace 0 L 200 = Ret x_vals /\
    calculate_moving_load_envelope L Q_load x_vals = Ret (max_M, max_V) /\
    np.max max_M = Ret m /\
    m <= Q_load * L / 4 /\
    Q_load * L / 4 - m <= Q_load * (sweep_step L + L / 199) / 4 /\
    sweep_step L <= 2 * 0.1.
Proof.
  intros HL HQ.
  destruct (sample_positions L HL) as (xs & Hxs & Hxlen & Hxnth & Hxin).
  destruct (load_positions L HL) as (pos & Hpos & Hplen & Hpnth & Hpin).
  set (env := fun x => running_max (fun a => M_temp_at L Q_load a x) pos 0).
  assert (Hne : map env xs <> []).
  { intros H. apply (f_equal (@length Q)) in H.
    rewrite length_map, Hxlen in H. discriminate. }
  destruct (np_max_returns _ Hne) as (m & Hm).
  exists xs. do 2 eexists. exists m.
  split; [exact Hxs|].
  split; [rewrite moving_load_envelope_pointwise, Hpos; reflexivity|].
  split; [exact Hm|].
  split; [|split; [|apply (sweep_step_bound L HL)]].
  - (* no entry exceeds Q L / 4 *)
    apply (np_max_le _ _ _ Hm). intros v Hv.
    apply in_map_iff in Hv. destruct Hv as (x & <- & Hx).
    apply running_max_le.
    + assert (0 <= Q_load * L) by (apply Qmult_le_0_compat; lra).
      apply Qle_shift_div_l; lra.
    + intros a Ha. rewrite M_temp_at_spec.
      destruct (spec_moment_bounds L Q_load HL HQ a x (Hpin a Ha) (Hxin x Hx))
        as [H0 H1].
      now rewrite Qabs_pos.
  - (* the sample past mid-span under the load just before mid-span *)
    assert (HP : 0 <= Q_load * L) by (apply Qmult_le_0_compat; lra).
    set (x100 := nth 100 xs 0).
    assert (Hx100 : x100 == 100 * L / 199).
    { unfold x100. rewrite (Hxnth 100%nat) by lia. reflexivity. }
    assert (Hin100 : In (env x100) (map env xs)).
    { apply in_map. apply nth_In. lia. }
    pose proof (np_max_ge _ _ _ Hm Hin100) as Hge.
    assert (Hv : 0 <= L * 10) by lra.
    destruct (py_int_bounds _ Hv) as (Hn & _ & _).
    unfold sweep_step. set (n := py_int (L * 10)) in *.
    destruct (Z.eqb_spec n 0) as [Hz | Hnz].
    + assert (H0 : 0 <= env x100) by apply running_max_init_le.
      setoid_replace (Q_load * L / 4) with ((1 # 4) * (Q_load * L)) by field.
      setoid_replace (Q_load * (L + L / 199) / 4)
        with ((200 # 796) * (Q_load * L)) by field.
      lra.
    + set (k := Z.to_nat (n / 2)).
      assert (Hk : (Z.of_nat k = n / 2)%Z).
      { unfold k. rewrite Z2Nat.id; [reflexivity | apply Z.div_pos; lia]. }
      assert (Hk2 : (2 * (n / 2) <= n <= 2 * (n / 2) + 1)%Z).
      { pose proof (Z.div_mod n 2 ltac:(lia)) as Hdm.
        pose proof (Z.mod_pos_bound n 2 ltac:(lia)). lia. }
      assert (Hkn : (k <= Z.to_nat n)%nat) by lia.
      set (a := nth k pos 0).
      assert (Hain : In a pos).
      { apply nth_In. rewrite Hplen. lia. }
      assert (Hnq : 1 <= inject_Z n).
      { change 1 with (inject_Z 1). rewrite <- Zle_Qle. lia. }
      set (u := / inject_Z n).
      assert (Hu : inject_Z n * u == 1) by (unfold u; field; lra).
      assert (Hu0 : 0 < u) by (apply Qinv_lt_0_compat; lra).
      set (t := inject_Z (Z.of_nat k) * u).
      assert (Ha : a == t * L).
      { unfold a, t, u. rewrite (Hpnth k Hkn).
        destruct (Z.eqb_spec n 0); [lia|]. field. lra. }
      assert (Ht : 1 - u <= 2 * t /\ 2 * t <= 1).
      { unfold t. rewrite Hk.
        assert (H1 : inject_Z (2 * (n / 2)) <= inject_Z n)
          by (rewrite <- Zle_Qle; lia).
        assert (H2 : inject_Z n <= inject_Z (2 * (n / 2) + 1))
          by (rewrite <- Zle_Qle; lia).
        rewrite inject_Z_plus, inject_Z_mult in H2.
        rewrite inject_Z_mult in H1.
        change (inject_Z 2) with 2 in *. change (inject_Z 1) with 1 in *.
        set (c := inject_Z (n / 2)) in *.
        assert (E1 : 0 <= (inject_Z n - 2 * c) * u)
          by (apply Qmult_le_0_compat; lra).
        assert (E2 : 0 <= (2 * c + 1 - inject_Z n) * u)
          by (apply Qmult_le_0_compat; lra).
        split; lra. }
      assert (Hax : a < x100).
      { rewrite Ha, Hx100.
        setoid_replace (100 * L / 199) with ((100 # 199) * L) by field.
        assert (0 <= (1 - 2 * t) * L) by (apply Qmult_le_0_compat; lra).
        lra. }
      assert (Hmom : spec_moment L Q_load a x100 == (99 # 199) * (Q_load * L) * t).
      { rewrite (spec_moment_right L Q_load HL a x100 Hax), Ha, Hx100.
        field. lra. }
      assert (Hlow : (99 # 199) * (Q_load * L) * t <= m).
      { eapply Qle_trans; [|exact Hge].
        rewrite <- Hmom. unfold env.
        eapply Qle_trans;
          [|apply (running_max_ge (fun a => M_temp_at L Q_load a x100) pos 0 a Hain)].
        cbv beta. rewrite M_temp_at_spec. apply Qle_Qabs. }
      setoid_replace (Q_load * L / 4) with ((1 # 4) * (Q_load * L)) by field.
      setoid_replace (Q_load * (L / inject_Z n + L / 199) / 4)
        with ((1 # 4) * (Q_load * L) * u + (1 # 796) * (Q_load * L))
        by (unfold u; field; lra).
      assert (E3 : 0 <= (Q_load * L) * (2 * t - (1 - u)))
        by (apply Qmult_le_0_compat; lra).
      assert (E4 : 0 <= (Q_load * L) * u)
        by (apply Qmult_le_0_compat; lra).
      lra.
Qed.

Lemma moving_load_max_moment_witness :
  exists x_vals max_M max_V m,
    np.linspace 0 0.25 200 = Ret x_vals /\
    calculate_moving_load_envelope 0.25 4 x_vals = Ret (max_M, max_V) /\
    np.max max_M = Ret m /\
    m <= 4 * 0.25 / 4 /\
    4 * 0.25 / 4 - m <= 4 * (sweep_step 0.25 + 0.25 / 199) / 4 /\
    sweep_step 0.25 <= 2 * 0.1.
Proof.
  apply (moving_load_max_moment 0.25 4); [reflexivity | discriminate].
Defined.

(** ** One pass of the profile loop *)

Lemma moving_load_envelope_returns (L Q_load : Q) (x_vals : list Q) :
  (0 <= py_int (L * 10) + 1)%Z ->
  exists M_Q V_Q,
    calculate_moving_load_envelope L Q_load x_vals = Ret (M_Q, V_Q) /\
    length M_Q = length x_vals /\ length V_Q = length x_vals.
Proof.
  intros Hn.
  destruct (linspace_spec 0 L (py_int (L * 10) + 1) Hn) as (pos & Hlin & _).
  rewrite moving_load_envelope_pointwise, Hlin. cbn [bind].
  do 2 eexists. split; [reflexivity|]. now rewrite !length_map.
Qed.

Lemma moving_load_envelope_raises (L Q_load : Q) (x_vals : list Q) :
  (py_int (L * 10) + 1 < 0)%Z ->
  calculate_moving_load_envelope L Q_load x_vals = Raise ValueError.
Proof.
  intros Hn. unfold calculate_moving_load_envelope.
  now rewrite linspace_raises.
Qed.

Lemma add_length (xs ys : list Q) :
  length xs = length ys -> length (np.add xs ys) = length xs.
Proof. apply map2_length. Qed.

Lemma scale_length (c : Q) (xs : list Q) : length (np.scale c xs) = length xs.
Proof. apply length_map. Qed.

Lemma abs_length (xs : list Q) : length (np.abs xs) = length xs.
Proof. apply length_map. Qed.

Section Superposition.

Variables (L delta_g Q_load fy : Q).
Variable x_vals : list Q.
Variable p : props.

Let g_k := mass p * 9.81 / 1000.
Let M_g := fst (calculate_distributed_moment_shear L g_k x_vals).
Let V_g := snd (calculate_distributed_moment_shear L g_k x_vals).
Let M_dg := fst (calculate_triangular_moment_shear L delta_g x_vals).
Let V_dg := snd (calculate_triangular_moment_shear L delta_g x_vals).

(** What one pass computes once the envelope has returned. *)
Lemma evaluate_profile_unfold (M_Q V_Q : list Q) :
  calculate_moving_load_envelope L Q_load x_vals = Ret (M_Q, V_Q) ->
  evaluate_profile L delta_g Q_load fy x_vals p
  = (let M_Ed_array :=
       np.add (np.scale 1.35 (np.add M_g M_dg)) (np.scale 1.5 M_Q) in
     let V_Ed_array :=
       np.add (np.scale 1.35 (np.add (np.abs V_g) (np.abs V_dg)))
         (np.scale 1.5 V_Q) in
     max_M_Ed <- np.max M_Ed_array ;;
     max_V_Ed <- np.max V_Ed_array ;;
     Ret (mk_results max_M_Ed max_V_Ed (max_M_Ed / Wy p * 1000)
            (max_M_Ed / Wy p * 1000 / fy) x_vals M_Ed_array V_Ed_array)).
Proof.
  intros Henv. unfold evaluate_profile.
  unfold calculate_distributed_moment_shear, calculate_triangular_moment_shear
    in *.
  rewrite Henv. reflexivity.
Qed.

Lemma superposition_lengths (M_Q V_Q : list Q) :
  length M_Q = length x_vals -> length V_Q = length x_vals ->
  length (np.add (np.scale 1.35 (np.add M_g M_dg)) (np.scale 1.5 M_Q))
  = length x_vals /\
  length (np.add (np.scale 1.35 (np.add (np.abs V_g) (np.abs V_dg)))
            (np.scale 1.5 V_Q))
  = length x_vals.
Proof.
  intros HM HV.
  assert (HMg : length M_g = length x_vals) by apply length_map.
  assert (HVg : length V_g = length x_vals) by apply length_map.
  assert (HMdg : length M_dg = length x_vals) by apply length_map.
  assert (HVdg : length V_dg = length x_vals) by apply length_map.
  assert (H1 : length (np.add M_g M_dg) = length x_vals)
    by (rewrite add_length; congruence).
  assert (H2 : length (np.add (np.abs V_g) (np.abs V_dg)) = length x_vals)
    by (rewrite add_length; rewrite !abs_length; congruence).
  split; (rewrite add_length; rewrite !scale_length; congruence).
Qed.

End Superposition.

Lemma add_nth (xs ys : list Q) (i : nat) :
  length xs = length ys -> (i < length xs)%nat ->
  nth i (np.add xs ys) 0 = nth i xs 0 + nth i ys 0.
Proof. apply map2_nth. Qed.

Lemma scale_nth (c : Q) (xs : list Q) (i : nat) :
  (i < length xs)%nat -> nth i (np.scale c xs) 0 = c * nth i xs 0.
Proof. apply nth_map_lt. Qed.

Lemma abs_nth (xs : list Q) (i : nat) :
  (i < length xs)%nat -> nth i (np.abs xs) 0 = Qabs (nth i xs 0).
Proof. apply nth_map_lt. Qed.

(** C2.  For a profile [p] (with [L > 0], [fy > 0], [Wy > 0] and at
    least one sample position) one pass of the loop returns these design
    quantities: with the self-weight [g = mass * 9.81 / 1000], at every
    sample [M_Ed = 1.35 (M_g + M_dg) + 1.5 M_Q] and
    [V_Ed = 1.35 (|V_g| + |V_dg|) + 1.5 V_Q], where [M_Q], [V_Q] is the
    moving-load envelope; the governing moment is the largest entry of the
    moment array; the stress is [max(M_Ed) / Wy * 1000] and the
    utilization is the stress over [fy]. *)
Theorem design_quantities_of_profile
  (L delta_g Q_load fy : Q) (x_vals : list Q) (p : props) :
  0 < L -> 0 < fy -> 0 < Wy p -> x_vals <> [] ->
  exists M_Q V_Q r,
    calculate_moving_load_envelope L Q_load x_vals = Ret (M_Q, V_Q) /\
    evaluate_profile L delta_g Q_load fy x_vals p = Ret r /\
    x r = x_vals /\
    length (M_array r) = length x_vals /\
    length (V_array r) = length x_vals /\
    (forall i, (i < length x_vals)%nat ->
       nth i (M_array r) 0
       = 1.35 * (nth i (fst (calculate_distributed_moment_shear L
                               (mass p * 9.81 / 1000) x_vals)) 0
                 + nth i (fst (calculate_triangular_moment_shear L
                                 delta_g x_vals)) 0)
         + 1.5 * nth i M_Q 0 /\
       nth i (V_array r) 0
       = 1.35 * (Qabs (nth i (snd (calculate_distributed_moment_shear L
                                     (mass p * 9.81 / 1000) x_vals)) 0)
                 + Qabs (nth i (snd (calculate_triangular_moment_shear L
                                       delta_g x_vals)) 0))
         + 1.5 * nth i V_Q 0) /\
    np.max (M_array r) = Ret (M_Ed r) /\
    (exists v, In v (M_array r) /\ M_Ed r == v) /\
    (forall v, In v (M_array r) -> v <= M_Ed r) /\
    np.max (V_array r) = Ret (V_Ed r) /\
    Sigma r = M_Ed r / Wy p * 1000 /\
    Util r = Sigma r / fy.
Proof.
  intros HL Hfy HWy Hne.
  assert (Hn : (0 <= py_int (L * 10) + 1)%Z).
  { destruct (py_int_bounds (L * 10)) as (Hn & _); [lra | lia]. }
  destruct (moving_load_envelope_returns L Q_load x_vals Hn)
    as (M_Q & V_Q & Henv & HlM & HlV).
  exists M_Q, V_Q.
  rewrite (evaluate_profile_unfold L delta_g Q_load fy x_vals p M_Q V_Q Henv).
  destruct (superposition_lengths L delta_g x_vals p M_Q V_Q HlM HlV)
    as [HlenM HlenV].
  cbv zeta.
  set (M_g := fst (calculate_distributed_moment_shear L
                     (mass p * 9.81 / 1000) x_vals)) in *.
  set (V_g := snd (calculate_distributed_moment_shear L
                     (mass p * 9.81 / 1000) x_vals)) in *.
  set (M_dg := fst (calculate_triangular_moment_shear L delta_g x_vals)) in *.
  set (V_dg := snd (calculate_triangular_moment_shear L delta_g x_vals)) in *.
  set (M_Ed_array :=
         np.add (np.scale 1.35 (np.add M_g M_dg)) (np.scale 1.5 M_Q)) in *.
  set (V_Ed_array :=
         np.add (np.scale 1.35 (np.add (np.abs V_g) (np.abs V_dg)))
           (np.scale 1.5 V_Q)) in *.
  assert (HneM : M_Ed_array <> []).
  { intros H. rewrite H in HlenM. destruct x_vals; [congruence | discriminate]. }
  assert (HneV : V_Ed_array <> []).
  { intros H. rewrite H in HlenV. destruct x_vals; [congruence | discriminate]. }
  destruct (np_max_returns _ HneM) as (max_M_Ed & HmaxM).
  destruct (np_max_returns _ HneV) as (max_V_Ed & HmaxV).
  rewrite HmaxM, HmaxV. cbn [bind].
  eexists. split; [exact Henv|]. split; [reflexivity|]. cbn [x M_array V_array M_Ed V_Ed Sigma Util].
  split; [reflexivity|]. split; [exact HlenM|]. split; [exact HlenV|].
  assert (HMg : length M_g = length x_vals) by apply length_map.
  assert (HVg : length V_g = length x_vals) by apply length_map.
  assert (HMdg : length M_dg = length x_vals) by apply length_map.
  assert (HVdg : length V_dg = length x_vals) by apply length_map.
  assert (H1 : length (np.add M_g M_dg) = length x_vals)
    by (rewrite add_length; congruence).
  assert (H2 : length (np.add (np.abs V_g) (np.abs V_dg)) = length x_vals)
    by (rewrite add_length; rewrite !abs_length; congruence).
  split.
  { intros i Hi. unfold M_Ed_array, V_Ed_array. split.
    - rewrite add_nth by (rewrite ?scale_length; congruence).
      rewrite !scale_nth by congruence.
      rewrite add_nth by congruence. reflexivity.
    - rewrite add_nth by (rewrite ?scale_length; congruence).
      rewrite !scale_nth by congruence.
      rewrite add_nth by (rewrite ?abs_length; congruence).
      rewrite !abs_nth by congruence. reflexivity. }
  split; [exact HmaxM|].
  split; [now apply np_max_attained|].
  split; [intros v Hv; now apply (np_max_ge _ _ _ HmaxM)|].
  split; [exact HmaxV|]. split; reflexivity.
Qed.

Lemma design_quantities_of_profile_witness :
  exists M_Q V_Q r,
    calculate_moving_load_envelope 1 10 [0; 0.5; 1] = Ret (M_Q, V_Q) /\
    evaluate_profile 1 16 10 235 [0; 0.5; 1] (mk_props 6.0 20.0) = Ret r /\
    x r = [0; 0.5; 1] /\
    np.max (M_array r) = Ret (M_Ed r) /\
    Sigma r = M_Ed r / 20.0 * 1000 /\
    Util r = Sigma r / 235.
Proof.
  destruct (design_quantities_of_profile 1 16 10 235 [0; 0.5; 1]
              (mk_props 6.0 20.0))
    as (M_Q & V_Q & r & H1 & H2 & H3 & _ & _ & _ & H4 & _ & _ & _ & H5 & H6);
    try reflexivity; [discriminate|].
  exists M_Q, V_Q, r. repeat split; assumption.
Defined.

(** ** The profile loop *)

Section Loop.

Variables (L delta_g Q_load fy : Q).
Variable x_vals : list Q.

Local Abbreviation evaluate := (evaluate_profile L delta_g Q_load fy x_vals).
Local Abbreviation loop := (profile_loop L delta_g Q_load fy x_vals).
Local Abbreviation rejected := (rejected L delta_g Q_load fy x_vals).

Lemma loop_skips_rejected (items : list (string * props))
  (st : option string * option results) :
  Forall rejected items -> loop items st = Ret st.
Proof.
  induction 1 as [|[name p] items (r & Hr & Hu) _ IH]; cbn [profile_loop];
    [reflexivity|].
  cbn [snd] in Hr. rewrite Hr. cbn [bind].
  replace (Qle_bool (Util r) 1.0) with false; [exact IH|].
  symmetry. apply not_true_is_false. intros Hle.
  apply Qle_bool_iff in Hle. lra.
Qed.

Lemma loop_stops_at_passing (before after : list (string * props))
  (name : string) (p : props) (r : results)
  (st : option string * option results) :
  Forall rejected before ->
  evaluate p = Ret r -> Util r <= 1.0 ->
  loop (before ++ (name, p) :: after) st = Ret (Some name, Some r).
Proof.
  intros Hbefore Hr Hu.
  induction Hbefore as [|[name0 p0] before (r0 & Hr0 & Hu0) _ IH];
    cbn [app profile_loop].
  - rewrite Hr. cbn [bind].
    now replace (Qle_bool (Util r) 1.0) with true
      by (symmetry; now apply Qle_bool_iff).
  - cbn [snd] in Hr0. rewrite Hr0. cbn [bind].
    replace (Qle_bool (Util r0) 1.0) with false; [exact IH|].
    symmetry. apply not_true_is_false. intros Hle.
    apply Qle_bool_iff in Hle. lra.
Qed.

Lemma loop_selected_inv (items : list (string * props))
  (best_profile : string) (r : results) :
  loop items (None, None) = Ret (Some best_profile, Some r) ->
  exists before p after,
    items = before ++ (best_profile, p) :: after /\
    Forall rejected before /\
    evaluate p = Ret r /\ Util r <= 1.0.
Proof.
  induction items as [|[name p] items IH]; cbn [profile_loop];
    [discriminate|].
  destruct (evaluate p) as [r0|e] eqn:Hr0; cbn [bind]; [|discriminate].
  destruct (Qle_bool (Util r0) 1.0) eqn:Hle.
  - intros [= <- <-]. exists [], p, items.
    repeat split; [constructor | exact Hr0 | now apply Qle_bool_iff].
  - intros Hsel. destruct (IH Hsel) as (before & p' & after & -> & Hb & Hr & Hu).
    exists ((name, p) :: before), p', after.
    repeat split; [|exact Hr | exact Hu].
    constructor; [|exact Hb].
    exists r0. split; [exact Hr0|].
    apply Qnot_le_lt. intros Hc. apply Qle_bool_iff in Hc. congruence.
Qed.

End Loop.

(** C1.  The loop runs through the table in its order and returns at
    the first profile whose utilization is at most 1.  For inputs of the
    data model it selects [best_profile] with the results [r] exactly
    when the table splits into profiles that are each evaluated and
    rejected with a utilization above 1, then a profile of that name
    whose pass returns [r] with a utilization of at most 1, then any
    rest: what follows the selected profile plays no part, the loop has
    stopped. *)
Theorem first_passing_profile_selected
  (L delta_g Q_load fy : Q) (x_vals : list Q)
  (catalog : list (string * props)) (best_profile : string) (r : results) :
  0 < L -> moderate L -> moderate delta_g -> moderate Q_load -> 0 < fy ->
  Forall (fun e => 0 < Wy (snd e) /\ moderate (mass (snd e))) catalog ->
  Forall (fun x => 0 <= x <= L) x_vals ->
  (profile_loop L delta_g Q_load fy x_vals catalog (None, None)
   = Ret (Some best_profile, Some r)
   <->
   exists before p after,
     catalog = before ++ (best_profile, p) :: after /\
     Forall (rejected L delta_g Q_load fy x_vals) before /\
     evaluate_profile L delta_g Q_load fy x_vals p = Ret r /\
     Util r <= 1.0).
Proof.
  intros _ _ _ _ _ _ _. split.
  - intros Hsel.
    destruct (loop_selected_inv _ _ _ _ _ _ _ _ Hsel)
      as (before & p & after & Hcat & Hb & Hr & Hu).
    exists before, p, after. auto.
  - intros (before & p & after & -> & Hb & Hr & Hu).
    now apply loop_stops_at_passing.
Qed.

Lemma first_passing_profile_selected_witness :
  exists r,
    profile_loop 1 32 20 235 [0; 0.5; 1]
      [ ("IPE 80"%string,  mk_props 6.0 20.0);
        ("IPE 100"%string, mk_props 8.1 34.2);
        ("IPE 120"%string, mk_props 10.4 53.0);
        ("IPE 140"%string, mk_props 12.9 77.3) ]
      (None, None)
    = Ret (Some "IPE 120"%string, Some r).
Proof.
  assert (H3 : { r | evaluate_profile 1 32 20 235 [0; 0.5; 1]
                       (mk_props 10.4 53.0) = Ret r })
    by (eexists; vm_compute; reflexivity).
  destruct H3 as [r Hr]. exists r.
  apply (first_passing_profile_selected 1 32 20 235 [0; 0.5; 1]).
  - reflexivity.
  - unfold moderate; vm_compute; discriminate.
  - unfold moderate; vm_compute; discriminate.
  - unfold moderate; vm_compute; discriminate.
  - reflexivity.
  - repeat constructor; unfold moderate; vm_compute; discriminate.
  - repeat constructor; discriminate.
  - exists [ ("IPE 80"%string,  mk_props 6.0 20.0);
             ("IPE 100"%string, mk_props 8.1 34.2) ],
      (mk_props 10.4 53.0),
      [ ("IPE 140"%string, mk_props 12.9 77.3) ].
    split; [reflexivity|]. split; [|split; [exact Hr|]].
    + constructor; [|constructor; [|constructor]];
        (eexists; split; [vm_compute; reflexivity | vm_compute; reflexivity]).
    + revert Hr. vm_compute. intros [= <-]. discriminate.
Defined.

(** ** Does a run return? *)

Lemma evaluate_profile_returns
  (L delta_g Q_load fy : Q) (x_vals : list Q) (p : props) :
  (0 <= py_int (L * 10) + 1)%Z -> x_vals <> [] ->
  exists r, evaluate_profile L delta_g Q_load fy x_vals p = Ret r.
Proof.
  intros Hn Hne.
  destruct (moving_load_envelope_returns L Q_load x_vals Hn)
    as (M_Q & V_Q & Henv & HlM & HlV).
  rewrite (evaluate_profile_unfold L delta_g Q_load fy x_vals p M_Q V_Q Henv).
  destruct (superposition_lengths L delta_g x_vals p M_Q V_Q HlM HlV)
    as [HlenM HlenV].
  cbv zeta.
  destruct (np.add (np.scale 1.35 _) (np.scale 1.5 M_Q)) as [|m ms];
    [destruct x_vals; [congruence | discriminate]|].
  destruct (np.add (np.scale 1.35 _) (np.scale 1.5 V_Q)) as [|v vs];
    [destruct x_vals; [congruence | discriminate]|].
  cbn [np.max bind]. now eexists.
Qed.

Lemma evaluate_profile_raises
  (L delta_g Q_load fy : Q) (x_vals : list Q) (p : props) :
  (py_int (L * 10) + 1 < 0)%Z ->
  evaluate_profile L delta_g Q_load fy x_vals p = Raise ValueError.
Proof.
  intros Hn. unfold evaluate_profile.
  unfold calculate_distributed_moment_shear, calculate_triangular_moment_shear.
  now rewrite moving_load_envelope_raises.
Qed.

Lemma profile_loop_returns
  (L delta_g Q_load fy : Q) (x_vals : list Q)
  (items : list (string * props)) (st : option string * option results) :
  (0 <= py_int (L * 10) + 1)%Z -> x_vals <> [] ->
  (st = (None, None) \/ exists n r, st = (Some n, Some r)) ->
  exists st',
    profile_loop L delta_g Q_load fy x_vals items st = Ret st' /\
    (st' = (None, None) \/ exists n r, st' = (Some n, Some r)).
Proof.
  intros Hn Hne Hst.
  induction items as [|[name p] items IH]; cbn [profile_loop].
  - exists st. auto.
  - destruct (evaluate_profile_returns L delta_g Q_load fy x_vals p Hn Hne)
      as (r & Hr).
    rewrite Hr. cbn [bind].
    destruct (Qle_bool (Util r) 1.0); [|exact IH].
    eexists. split; [reflexivity|]. right. now do 2 eexists.
Qed.

Lemma run_sample_positions (L : Q) :
  exists x_vals, np.linspace 0 L 200 = Ret x_vals /\ x_vals <> [].
Proof.
  destruct (linspace_spec 0 L 200) as (xs & Hlin & Hlen & _); [lia|].
  exists xs. split; [exact Hlin|]. intros ->. discriminate.
Qed.

(** C3.  When the table is empty, or every profile in it is evaluated
    with a utilization above 1, the loop ends with no profile selected
    and the run reports "Kein Profil gefunden": it does not raise and
    shows no profile. *)
Theorem no_profile_found
  (L delta_g Q_load fy : Q) (catalog : list (string * props)) :
  (catalog = [] \/
   (0 < L /\ 0 < fy /\ Forall (fun e => 0 < Wy (snd e)) catalog /\
    forall x_vals, np.linspace 0 L 200 = Ret x_vals ->
      Forall (rejected L delta_g Q_load fy x_vals) catalog)) ->
  (exists x_vals,
     np.linspace 0 L 200 = Ret x_vals /\
     profile_loop L delta_g Q_load fy x_vals catalog (None, None)
     = Ret (None, None)) /\
  run L delta_g Q_load fy catalog = Ret Error_kein_profil_gefunden.
Proof.
  intros Hcat.
  destruct (run_sample_positions L) as (xs & Hlin & _).
  assert (Hloop : profile_loop L delta_g Q_load fy xs catalog (None, None)
                  = Ret (None, None)).
  { destruct Hcat as [-> | (_ & _ & _ & Hrej)]; [reflexivity|].
    apply loop_skips_rejected. now apply Hrej. }
  split.
  - exists xs. auto.
  - unfold run. rewrite Hlin. cbn [bind]. rewrite Hloop. reflexivity.
Qed.

Lemma no_profile_found_witness :
  run 0.05 1000000000 0 235 [ ("IPE 80"%string, mk_props 6.0 20.0) ]
  = Ret Error_kein_profil_gefunden.
Proof.
  apply (no_profile_found 0.05 1000000000 0 235
           [ ("IPE 80"%string, mk_props 6.0 20.0) ]).
  right. split; [reflexivity|]. split; [reflexivity|].
  split; [repeat constructor|].
  intros x_vals Hx. injection Hx as <-.
  constructor; [|constructor].
  eexists. split; vm_compute; reflexivity.
Defined.

(** ** Inputs outside the data model *)

(** A negative load and a negative span are computed with, not
    rejected: both runs show a profile. *)
Lemma invalid_input_not_rejected :
  (invalid_input 0.05 (-1) 0 /\
   ~ rejects 0.05 (-1) 0 235 IPE_DATA /\
   exists r, run 0.05 (-1) 0 235 IPE_DATA = Ret (Success "IPE 80" r)) /\
  (invalid_input (-0.05) 1 1 /\
   ~ rejects (-0.05) 1 1 235 IPE_DATA /\
   exists r, run (-0.05) 1 1 235 IPE_DATA = Ret (Success "IPE 80" r)).
Proof.
  assert (H1 : exists r, run 0.05 (-1) 0 235 IPE_DATA
                         = Ret (Success "IPE 80" r))
    by (eexists; vm_compute; reflexivity).
  assert (H2 : exists r, run (-0.05) 1 1 235 IPE_DATA
                         = Ret (Success "IPE 80" r))
    by (eexists; vm_compute; reflexivity).
  split; (split; [|split]); try assumption.
  - right. left. reflexivity.
  - intros (e & He). destruct H1 as (r & Hr). congruence.
  - left. discriminate.
  - intros (e & He). destruct H2 as (r & Hr). congruence.
Qed.

Lemma py_int_above_minus_one (v : Q) : -1 < v -> (0 <= py_int v)%Z.
Proof.
  destruct v as [n d]. unfold Qlt, py_int; simpl. intros H.
  destruct (Z_lt_le_dec n 0) as [Hneg | Hpos].
  - replace n with (- (- n))%Z by lia.
    rewrite Z.quot_opp_l by lia.
    rewrite Z.quot_small by lia. lia.
  - apply Z.quot_pos; lia.
Qed.

(** C4, amended.  The run has no input check, and an invalid input is
    not rejected: for loads of either sign and a span with
    [-0.1 < L <= 1000], [L <> 0] (a valid span with a negative load, or a
    slightly negative span) the run raises nothing and returns a report,
    computed from the inputs as they are. *)
Theorem invalid_inputs_are_computed_with
  (L delta_g Q_load fy : Q) (catalog : list (string * props)) :
  invalid_input L delta_g Q_load ->
  - 0.1 < L -> L <= 1000 -> ~ L == 0 ->
  ~ rejects L delta_g Q_load fy catalog /\
  exists rep, run L delta_g Q_load fy catalog = Ret rep.
Proof.
  intros _ Hlow _ _.
  destruct (run_sample_positions L) as (xs & Hlin & Hne).
  assert (Hn : (0 <= py_int (L * 10) + 1)%Z).
  { assert (H : (0 <= py_int (L * 10))%Z)
      by (apply py_int_above_minus_one; lra).
    lia. }
  assert (Hret : exists rep, run L delta_g Q_load fy catalog = Ret rep).
  { unfold run. rewrite Hlin. cbn [bind].
    destruct (profile_loop_returns L delta_g Q_load fy xs catalog
                (None, None) Hn Hne) as (st' & -> & _); [now left|].
    cbn [bind].
    destruct st' as [[best|] [r|]]; try (now eexists).
    destruct (truthy (Some best)); now eexists. }
  split; [|exact Hret].
  intros (e & He). destruct Hret as (rep & Hrep). congruence.
Qed.

Lemma invalid_inputs_are_computed_with_witness :
  ~ rejects 0.05 (-1) 0 235 IPE_DATA /\
  exists rep, run 0.05 (-1) 0 235 IPE_DATA = Ret rep.
Proof.
  apply (invalid_inputs_are_computed_with 0.05 (-1) 0 235 IPE_DATA).
  - right. left. reflexivity.
  - reflexivity.
  - discriminate.
  - discriminate.
Defined.

(** A span with one sweep interval ([0.1 <= L < 0.2]) has the load only
    over the supports; the moment envelope is zero there as well, and the
    whole [Q L / 4] lies inside the tolerance [Q (L + L / 199) / 4] of a
    sweep whose spacing is the span. *)
Example one_interval_span_has_zero_moment_envelope :
  exists max_M max_V,
    calculate_moving_load_envelope 0.15 4 [0; 0.075; 0.15] = Ret (max_M, max_V) /\
    Forall (fun m => m == 0) max_M.
Proof.
  do 2 eexists. split; [vm_compute; reflexivity|].
  repeat constructor.
Qed.

(** * Further properties of the program *)

(** ** The closed-form evaluators, sample by sample *)

Lemma distributed_nth (L q : Q) (x_vals : list Q) (i : nat) :
  (i < length x_vals)%nat ->
  nth i (fst (calculate_distributed_moment_shear L q x_vals)) 0
  = (q * nth i x_vals 0 / 2) * (L - nth i x_vals 0) /\
  nth i (snd (calculate_distributed_moment_shear L q x_vals)) 0
  = q * L / 2 - q * nth i x_vals 0.
Proof.
  intros Hi. unfold calculate_distributed_moment_shear; cbn [fst snd].
  now rewrite !(nth_map_lt _ _ _ 0) by exact Hi.
Qed.

Lemma triangular_nth (L q_max : Q) (x_vals : list Q) (i : nat) :
  (i < length x_vals)%nat ->
  nth i (fst (calculate_triangular_moment_shear L q_max x_vals)) 0
  = q_max * L / 6 * nth i x_vals 0 - q_max * nth i x_vals 0 ^ 3 / (6 * L) /\
  nth i (snd (calculate_triangular_moment_shear L q_max x_vals)) 0
  = q_max * L / 6 - q_max * nth i x_vals 0 ^ 2 / (2 * L).
Proof.
  intros Hi. unfold calculate_triangular_moment_shear; cbn [fst snd].
  now rewrite !(nth_map_lt _ _ _ 0) by exact Hi.
Qed.

(** X1.  Under a uniform load [q >= 0] the moment at a sample inside the
    span lies between 0 and [q L^2 / 8]; it is 0 at both supports and
    [q L^2 / 8] at mid-span. *)
Theorem distributed_moment_range (L q : Q) (x_vals : list Q) (i : nat) :
  0 <= q -> (i < length x_vals)%nat -> 0 <= nth i x_vals 0 <= L ->
  0 <= nth i (fst (calculate_distributed_moment_shear L q x_vals)) 0
    <= q * L * L / 8 /\
  (nth i x_vals 0 == 0 \/ nth i x_vals 0 == L ->
   nth i (fst (calculate_distributed_moment_shear L q x_vals)) 0 == 0) /\
  (nth i x_vals 0 == L / 2 ->
   nth i (fst (calculate_distributed_moment_shear L q x_vals)) 0
   == q * L * L / 8).
Proof.
  intros Hq Hi [Hx0 HxL].
  destruct (distributed_nth L q x_vals i Hi) as [-> _].
  set (x := nth i x_vals 0) in *.
  split; [split|split].
  - setoid_replace (q * x / 2 * (L - x)) with ((1 # 2) * (q * (x * (L - x))))
      by field.
    assert (0 <= x * (L - x)) by (apply Qmult_le_0_compat; lra).
    assert (0 <= q * (x * (L - x))) by (apply Qmult_le_0_compat; lra).
    lra.
  - setoid_replace (q * x / 2 * (L - x)) with ((1 # 2) * (q * (x * (L - x))))
      by field.
    setoid_replace (q * L * L / 8) with ((1 # 8) * (q * (L * L))) by field.
    pose proof (Qsquare_nonneg (L - 2 * x)) as Hsq.
    assert (H : 0 <= q * (L * L - 4 * (x * (L - x))))
      by (apply Qmult_le_0_compat; lra).
    lra.
  - intros [H | H]; rewrite H; field.
  - intros H. rewrite H. field.
Qed.

Lemma distributed_moment_range_witness :
  0 <= nth 1 (fst (calculate_distributed_moment_shear 2 3 [0; 1; 2])) 0
    <= 3 * 2 * 2 / 8 /\
  nth 0 (fst (calculate_distributed_moment_shear 2 3 [0; 1; 2])) 0 == 0 /\
  nth 1 (fst (calculate_distributed_moment_shear 2 3 [0; 1; 2])) 0
  == 3 * 2 * 2 / 8.
Proof.
  destruct (distributed_moment_range 2 3 [0; 1; 2] 1) as (H1 & _ & H3);
    [discriminate | simpl; lia | split; discriminate |].
  destruct (distributed_moment_range 2 3 [0; 1; 2] 0) as (_ & H2 & _);
    [discriminate | simpl; lia | split; discriminate |].
  split; [exact H1|]. split; [apply H2; left; reflexivity|].
  apply H3. reflexivity.
Defined.

(** X2.  A uniform load is carried symmetrically: at two samples that
    mirror each other about mid-span the moments agree and the shears are
    opposite; the shear at the left support is the reaction [q L / 2], at
    the right support [- q L / 2]. *)
Theorem distributed_symmetry (L q : Q) (x_vals : list Q) (i j : nat) :
  (i < length x_vals)%nat -> (j < length x_vals)%nat ->
  nth j x_vals 0 == L - nth i x_vals 0 ->
  nth j (fst (calculate_distributed_moment_shear L q x_vals)) 0
  == nth i (fst (calculate_distributed_moment_shear L q x_vals)) 0 /\
  nth j (snd (calculate_distributed_moment_shear L q x_vals)) 0
  == - nth i (snd (calculate_distributed_moment_shear L q x_vals)) 0 /\
  (nth i x_vals 0 == 0 ->
   nth i (snd (calculate_distributed_moment_shear L q x_vals)) 0 == q * L / 2 /\
   nth j (snd (calculate_distributed_moment_shear L q x_vals)) 0
   == - (q * L / 2)).
Proof.
  intros Hi Hj Hmirror.
  destruct (distributed_nth L q x_vals i Hi) as [-> ->].
  destruct (distributed_nth L q x_vals j Hj) as [-> ->].
  rewrite Hmirror.
  split; [field|]. split; [field|].
  intros H0. rewrite H0. split; field.
Qed.

Lemma distributed_symmetry_witness :
  nth 3 (fst (calculate_distributed_moment_shear 2 3 [0; 0.5; 1; 1.5; 2])) 0
  == nth 1 (fst (calculate_distributed_moment_shear 2 3 [0; 0.5; 1; 1.5; 2])) 0 /\
  nth 4 (snd (calculate_distributed_moment_shear 2 3 [0; 0.5; 1; 1.5; 2])) 0
  == - (3 * 2 / 2).
Proof.
  destruct (distributed_symmetry 2 3 [0; 0.5; 1; 1.5; 2] 1 3) as (H1 & _ & _);
    [simpl; lia | simpl; lia | reflexivity |].
  destruct (distributed_symmetry 2 3 [0; 0.5; 1; 1.5; 2] 0 4) as (_ & _ & H2);
    [simpl; lia | simpl; lia | reflexivity |].
  split; [exact H1|]. apply H2. reflexivity.
Defined.

(** X3.  Both closed-form evaluators are linear in the load: the forces
    under a sum of two loads are the sums of the forces, and scaling the
    load scales the forces. *)
Theorem evaluators_linear_in_load
  (L q1 q2 c : Q) (x_vals : list Q) (i : nat) :
  0 < L -> (i < length x_vals)%nat ->
  (nth i (fst (calculate_distributed_moment_shear L (q1 + q2) x_vals)) 0
   == nth i (fst (calculate_distributed_moment_shear L q1 x_vals)) 0
      + nth i (fst (calculate_distributed_moment_shear L q2 x_vals)) 0 /\
   nth i (snd (calculate_distributed_moment_shear L (q1 + q2) x_vals)) 0
   == nth i (snd (calculate_distributed_moment_shear L q1 x_vals)) 0
      + nth i (snd (calculate_distributed_moment_shear L q2 x_vals)) 0 /\
   nth i (fst (calculate_distributed_moment_shear L (c * q1) x_vals)) 0
   == c * nth i (fst (calculate_distributed_moment_shear L q1 x_vals)) 0 /\
   nth i (snd (calculate_distributed_moment_shear L (c * q1) x_vals)) 0
   == c * nth i (snd (calculate_distributed_moment_shear L q1 x_vals)) 0) /\
  (nth i (fst (calculate_triangular_moment_shear L (q1 + q2) x_vals)) 0
   == nth i (fst (calculate_triangular_moment_shear L q1 x_vals)) 0
      + nth i (fst (calculate_triangular_moment_shear L q2 x_vals)) 0 /\
   nth i (snd (calculate_triangular_moment_shear L (q1 + q2) x_vals)) 0
   == nth i (snd (calculate_triangular_moment_shear L q1 x_vals)) 0
      + nth i (snd (calculate_triangular_moment_shear L q2 x_vals)) 0 /\
   nth i (fst (calculate_triangular_moment_shear L (c * q1) x_vals)) 0
   == c * nth i (fst (calculate_triangular_moment_shear L q1 x_vals)) 0 /\
   nth i (snd (calculate_triangular_moment_shear L (c * q1) x_vals)) 0
   == c * nth i (snd (calculate_triangular_moment_shear L q1 x_vals)) 0).
Proof.
  intros HL Hi. split.
  - destruct (distributed_nth L (q1 + q2) x_vals i Hi) as [-> ->].
    destruct (distributed_nth L (c * q1) x_vals i Hi) as [-> ->].
    destruct (distributed_nth L q1 x_vals i Hi) as [-> ->].
    destruct (distributed_nth L q2 x_vals i Hi) as [-> ->].
    repeat split; field.
  - destruct (triangular_nth L (q1 + q2) x_vals i Hi) as [-> ->].
    destruct (triangular_nth L (c * q1) x_vals i Hi) as [-> ->].
    destruct (triangular_nth L q1 x_vals i Hi) as [-> ->].
    destruct (triangular_nth L q2 x_vals i Hi) as [-> ->].
    repeat split; field; lra.
Qed.

Lemma evaluators_linear_in_load_witness :
  nth 1 (fst (calculate_triangular_moment_shear 2 (3 + 4) [0; 1; 2])) 0
  == nth 1 (fst (calculate_triangular_moment_shear 2 3 [0; 1; 2])) 0
     + nth 1 (fst (calculate_triangular_moment_shear 2 4 [0; 1; 2])) 0.
Proof.
  destruct (evaluators_linear_in_load 2 3 4 1 [0; 1; 2] 1) as (_ & H & _);
    [reflexivity | simpl; lia |].
  exact H.
Defined.

(** The cubic behind the peak moment of a triangular load:
    [x (L^2 - x^2) <= 0.385 L^3] on the span (the exact peak factor is
    [2 / (3 sqrt 3) = 0.3849...]). *)
Lemma triangular_cubic_bound (L x : Q) :
  0 <= x <= L -> x * (L * L - x * x) <= (385 # 1000) * (L * L * L).
Proof.
  intros [Hx0 HxL].
  set (a := (5774 # 10000) * L).
  assert (Ha : 0 <= a) by (unfold a; lra).
  pose proof (Qsquare_nonneg (x - a)) as Hsq.
  assert (H1 : 0 <= (x - a) * (x - a) * (x + 2 * a))
    by (apply Qmult_le_0_compat; lra).
  assert (HLL : 0 <= L * L) by (apply Qmult_le_0_compat; lra).
  assert (H2 : 0 <= L * L * x) by (apply Qmult_le_0_compat; lra).
  assert (H3 : 0 <= L * L * L) by (apply Qmult_le_0_compat; lra).
  unfold a in H1.
  lra.
Qed.

(** X4.  Under a triangular load with peak [q_max >= 0] on a span
    [L > 0]: the moment at a sample inside the span lies between 0 and
    [0.385 / 6 * q_max L^2]; at the left support the moment is 0 and the
    shear is the reaction [q_max L / 6]; at the right support the shear is
    [- q_max L / 3], so that the two reactions carry the whole load
    [q_max L / 2]. *)
Theorem triangular_moment_range (L q_max : Q) (x_vals : list Q) (i : nat) :
  0 < L -> 0 <= q_max -> (i < length x_vals)%nat ->
  0 <= nth i x_vals 0 <= L ->
  0 <= nth i (fst (calculate_triangular_moment_shear L q_max x_vals)) 0
    <= (385 # 6000) * (q_max * L * L) /\
  (nth i x_vals 0 == 0 ->
   nth i (fst (calculate_triangular_moment_shear L q_max x_vals)) 0 == 0 /\
   nth i (snd (calculate_triangular_moment_shear L q_max x_vals)) 0
   == q_max * L / 6) /\
  (nth i x_vals 0 == L ->
   nth i (snd (calculate_triangular_moment_shear L q_max x_vals)) 0
   == - (q_max * L / 3)).
Proof.
  intros HL Hq Hi [Hx0 HxL].
  destruct (triangular_nth L q_max x_vals i Hi) as [-> ->].
  set (x := nth i x_vals 0) in *.
  assert (HM : q_max * L / 6 * x - q_max * x ^ 3 / (6 * L)
               == q_max * (x * (L * L - x * x)) / (6 * L))
    by (field; lra).
  split; [rewrite HM; split|split].
  - apply Qle_shift_div_l; [lra|].
    assert (0 <= L * L - x * x).
    { assert (0 <= (L - x) * (L + x)) by (apply Qmult_le_0_compat; lra). lra. }
    assert (0 <= x * (L * L - x * x)) by (apply Qmult_le_0_compat; lra).
    assert (0 <= q_max * (x * (L * L - x * x)))
      by (apply Qmult_le_0_compat; lra).
    lra.
  - apply Qle_shift_div_r; [lra|].
    pose proof (triangular_cubic_bound L x (conj Hx0 HxL)) as Hc.
    assert (H : 0 <= q_max * ((385 # 1000) * (L * L * L) - x * (L * L - x * x)))
      by (apply Qmult_le_0_compat; lra).
    lra.
  - intros H0. rewrite H0. split; field; lra.
  - intros H1. rewrite H1. field. lra.
Qed.

Lemma triangular_moment_range_witness :
  0 <= nth 1 (fst (calculate_triangular_moment_shear 2 3 [0; 1; 2])) 0
    <= (385 # 6000) * (3 * 2 * 2) /\
  nth 0 (snd (calculate_triangular_moment_shear 2 3 [0; 1; 2])) 0 == 3 * 2 / 6 /\
  nth 2 (snd (calculate_triangular_moment_shear 2 3 [0; 1; 2])) 0
  == - (3 * 2 / 3).
Proof.
  destruct (triangular_moment_range 2 3 [0; 1; 2] 1) as (H1 & _ & _);
    [reflexivity | discriminate | simpl; lia | split; discriminate |].
  destruct (triangular_moment_range 2 3 [0; 1; 2] 0) as (_ & H2 & _);
    [reflexivity | discriminate | simpl; lia | split; discriminate |].
  destruct (triangular_moment_range 2 3 [0; 1; 2] 2) as (_ & _ & H3);
    [reflexivity | discriminate | simpl; lia | split; discriminate |].
  split; [exact H1|]. split; [apply H2; reflexivity | apply H3; reflexivity].
Defined.

(** ** The envelope at one sample *)

Lemma running_max_ext (f g : Q -> Q) (pos : list Q) (m : Q) :
  (forall a, f a = g a) -> running_max f pos m = running_max g pos m.
Proof.
  intros Hfg. revert m; induction pos as [|a pos IH]; intros m; simpl;
    [reflexivity|].
  rewrite Hfg. apply IH.
Qed.

Lemma running_max_comp (f g : Q -> Q) (pos : list Q) (m m' : Q) :
  (forall a, Qabs (f a) == Qabs (g a)) -> m == m' ->
  running_max f pos m == running_max g pos m'.
Proof.
  intros Hfg. revert m m'; induction pos as [|a pos IH]; intros m m' Hm; simpl;
    [exact Hm|].
  apply IH. now rewrite Hm, (Hfg a).
Qed.

Lemma Qmax_scale (c a b : Q) : 0 <= c -> Qmax (c * a) (c * b) == c * Qmax a b.
Proof.
  intros Hc.
  destruct (Q.max_spec_le a b) as [[Hab ->] | [Hba ->]].
  - apply Q.max_r.
    assert (0 <= c * (b - a)) by (apply Qmult_le_0_compat; lra). lra.
  - apply Q.max_l.
    assert (0 <= c * (a - b)) by (apply Qmult_le_0_compat; lra). lra.
Qed.

Lemma running_max_scale (c : Q) (f g : Q -> Q) (pos : list Q) (m m' : Q) :
  0 <= c -> (forall a, Qabs (g a) == c * Qabs (f a)) -> m' == c * m ->
  running_max g pos m' == c * running_max f pos m.
Proof.
  intros Hc Hfg. revert m m'; induction pos as [|a pos IH]; intros m m' Hm;
    simpl; [exact Hm|].
  apply IH. now rewrite Hm, (Hfg a), Qmax_scale.
Qed.

Lemma envelope_at_samples (L Q_load : Q) (x_vals : list Q) :
  (0 <= py_int (L * 10) + 1)%Z ->
  exists q_positions max_M max_V,
    np.linspace 0 L (py_int (L * 10) + 1) = Ret q_positions /\
    calculate_moving_load_envelope L Q_load x_vals = Ret (max_M, max_V) /\
    length max_M = length x_vals /\
    length max_V = length x_vals /\
    forall i, (i < length x_vals)%nat ->
      nth i max_M 0
      = running_max (fun a => spec_moment L Q_load a (nth i x_vals 0))
          q_positions 0 /\
      nth i max_V 0
      = running_max (fun a => spec_shear L Q_load a (nth i x_vals 0))
          q_positions 0.
Proof.
  intros Hn.
  destruct (linspace_spec 0 L (py_int (L * 10) + 1) Hn) as (pos & Hlin & _).
  rewrite moving_load_envelope_pointwise, Hlin. cbn [bind].
  exists pos. do 2 eexists. split; [reflexivity|]. split; [reflexivity|].
  rewrite !length_map. do 2 (split; [reflexivity|]).
  intros i Hi. rewrite !(nth_map_lt _ _ _ 0) by exact Hi.
  split; apply running_max_ext; intros a;
    [apply M_temp_at_spec | apply V_temp_at_spec].
Qed.

Lemma positive_span_count (L : Q) : 0 < L -> (0 <= py_int (L * 10) + 1)%Z.
Proof.
  intros HL. destruct (py_int_bounds (L * 10)) as (Hn & _); [lra | lia].
Qed.

Lemma envelope_entries_lengths
  (L Q_load : Q) (x_vals max_M max_V : list Q) :
  calculate_moving_load_envelope L Q_load x_vals = Ret (max_M, max_V) ->
  length max_M = length x_vals /\ length max_V = length x_vals.
Proof.
  rewrite moving_load_envelope_pointwise.
  destruct (np.linspace 0 L (py_int (L * 10) + 1)) as [pos|e]; cbn [bind];
    [|discriminate].
  intros [= <- <-]. now rewrite !length_map.
Qed.

Lemma envelope_entries_nonneg_aux
  (L Q_load : Q) (x_vals max_M max_V : list Q) :
  calculate_moving_load_envelope L Q_load x_vals = Ret (max_M, max_V) ->
  Forall (fun m => 0 <= m) max_M /\ Forall (fun v => 0 <= v) max_V.
Proof.
  rewrite moving_load_envelope_pointwise.
  destruct (np.linspace 0 L (py_int (L * 10) + 1)) as [pos|e]; cbn [bind];
    [|discriminate].
  intros [= <- <-].
  split; apply Forall_map_intro; intros x; apply running_max_init_le.
Qed.

(** X5.  For a span [L <> 0] and inputs of moderate size (also a
    negative load, a negative span or samples outside the span) an
    envelope that is returned has one entry per sample position and no
    negative entry. *)
Theorem envelope_entries_nonnegative
  (L Q_load : Q) (x_vals max_M max_V : list Q) :
  ~ L == 0 -> moderate L -> moderate Q_load -> Forall moderate x_vals ->
  calculate_moving_load_envelope L Q_load x_vals = Ret (max_M, max_V) ->
  length max_M = length x_vals /\ length max_V = length x_vals /\
  Forall (fun m => 0 <= m) max_M /\ Forall (fun v => 0 <= v) max_V.
Proof.
  intros _ _ _ _ Henv.
  destruct (envelope_entries_lengths _ _ _ _ _ Henv) as [HlM HlV].
  destruct (envelope_entries_nonneg_aux _ _ _ _ _ Henv) as [HM HV].
  auto.
Qed.

Lemma envelope_entries_nonnegative_witness :
  exists max_M max_V,
    calculate_moving_load_envelope 0.25 (-4) [0; 0.125; 0.3] = Ret (max_M, max_V) /\
    Forall (fun m => 0 <= m) max_M /\ Forall (fun v => 0 <= v) max_V.
Proof.
  assert (H : { MV | calculate_moving_load_envelope 0.25 (-4) [0; 0.125; 0.3]
                     = Ret MV }) by (eexists; vm_compute; reflexivity).
  destruct H as [[max_M max_V] H].
  exists max_M, max_V. split; [exact H|].
  destruct (envelope_entries_nonnegative 0.25 (-4) [0; 0.125; 0.3] max_M max_V)
    as (_ & _ & HM & HV);
    [ discriminate
    | unfold moderate; vm_compute; discriminate
    | unfold moderate; vm_compute; discriminate
    | repeat constructor; unfold moderate; vm_compute; discriminate
    | exact H | ].
  auto.
Defined.

Section EnvelopeBounds.

Variables (L Q_load : Q).
Hypothesis HL : 0 < L.
Hypothesis HQ : 0 <= Q_load.

(** For a load and a sample inside the span the moment under the load at
    [a] is at most the moment under the load at the sample itself. *)
Lemma spec_moment_influence (a x : Q) :
  0 <= a <= L -> 0 <= x <= L ->
  Qabs (spec_moment L Q_load a x) <= Q_load * x * (L - x) / L.
Proof.
  intros Ha Hx.
  destruct (spec_moment_bounds L Q_load HL HQ a x Ha Hx) as [H0 _].
  rewrite Qabs_pos by exact H0.
  destruct Ha as [Ha0 HaL], Hx as [Hx0 HxL].
  destruct (Qlt_le_dec a x) as [Hax | Hxa].
  - rewrite (spec_moment_right L Q_load HL a x Hax).
    apply Qle_shift_div_r; [exact HL|].
    setoid_replace (Q_load * x * (L - x) / L * L) with (Q_load * x * (L - x))
      by (field; lra).
    assert (0 <= Q_load * (L - x)) by (apply Qmult_le_0_compat; lra).
    assert (0 <= Q_load * (L - x) * (x - a)) by (apply Qmult_le_0_compat; lra).
    lra.
  - rewrite (spec_moment_left L Q_load HL a x Hxa).
    apply Qle_shift_div_r; [exact HL|].
    setoid_replace (Q_load * x * (L - x) / L * L) with (Q_load * x * (L - x))
      by (field; lra).
    assert (0 <= Q_load * x) by (apply Qmult_le_0_compat; lra).
    assert (0 <= Q_load * x * (a - x)) by (apply Qmult_le_0_compat; lra).
    lra.
Qed.

Lemma spec_shear_left (a x : Q) :
  x <= a -> spec_shear L Q_load a x == Q_load * (L - a) / L.
Proof.
  intros Hxa. unfold spec_shear.
  now replace (Qle_bool x a) with true by (symmetry; now apply Qle_bool_iff).
Qed.

Lemma spec_shear_right (a x : Q) :
  a < x -> spec_shear L Q_load a x == - (Q_load * a / L).
Proof.
  intros Hax. unfold spec_shear.
  destruct (Qle_bool x a) eqn:Hle.
  - apply Qle_bool_iff in Hle. lra.
  - field. lra.
Qed.

Lemma spec_shear_abs (a x : Q) :
  0 <= a <= L ->
  Qabs (spec_shear L Q_load a x)
  == if Qle_bool x a then Q_load * (L - a) / L else Q_load * a / L.
Proof.
  intros [Ha0 HaL].
  destruct (Qle_bool x a) eqn:Hle.
  - apply Qle_bool_iff in Hle. rewrite (spec_shear_left a x Hle).
    apply Qabs_pos. apply Qle_shift_div_l; [exact HL|].
    assert (0 <= Q_load * (L - a)) by (apply Qmult_le_0_compat; lra). lra.
  - assert (Hax : a < x).
    { apply Qnot_le_lt. intros Hc. apply Qle_bool_iff in Hc. congruence. }
    rewrite (spec_shear_right a x Hax), Qabs_opp.
    apply Qabs_pos. apply Qle_shift_div_l; [exact HL|].
    assert (0 <= Q_load * a) by (apply Qmult_le_0_compat; lra). lra.
Qed.

Lemma spec_shear_bound (a x : Q) :
  0 <= a <= L -> Qabs (spec_shear L Q_load a x) <= Q_load.
Proof.
  intros Ha. rewrite (spec_shear_abs a x Ha). destruct Ha as [Ha0 HaL].
  destruct (Qle_bool x a); apply Qle_shift_div_r; try exact HL.
  - assert (0 <= Q_load * a) by (apply Qmult_le_0_compat; lra). lra.
  - assert (0 <= Q_load * (L - a)) by (apply Qmult_le_0_compat; lra). lra.
Qed.

End EnvelopeBounds.

(** X6.  For [L > 0] and [Q >= 0], at a sample [x] inside the span the
    moment envelope never exceeds the exact envelope [Q x (L - x) / L] of
    a travelling load, so it is 0 at both supports, and the shear envelope
    never exceeds [Q]. *)
Theorem envelope_below_exact_envelope
  (L Q_load : Q) (x_vals : list Q) (i : nat) :
  0 < L -> 0 <= Q_load -> (i < length x_vals)%nat ->
  0 <= nth i x_vals 0 <= L ->
  exists max_M max_V,
    calculate_moving_load_envelope L Q_load x_vals = Ret (max_M, max_V) /\
    nth i max_M 0 <= Q_load * nth i x_vals 0 * (L - nth i x_vals 0) / L /\
    (nth i x_vals 0 == 0 \/ nth i x_vals 0 == L -> nth i max_M 0 == 0) /\
    nth i max_V 0 <= Q_load.
Proof.
  intros HL HQ Hi Hx.
  destruct (load_positions L HL) as (pos & Hpos & _ & _ & Hpin).
  destruct (envelope_at_samples L Q_load x_vals (positive_span_count L HL))
    as (pos' & max_M & max_V & Hpos' & Henv & _ & _ & Hnth).
  rewrite Hpos in Hpos'. injection Hpos' as <-.
  exists max_M, max_V. split; [exact Henv|].
  destruct (Hnth i Hi) as [HM HV]. rewrite HM, HV.
  set (x := nth i x_vals 0) in *.
  assert (Hexact : 0 <= Q_load * x * (L - x) / L).
  { apply Qle_shift_div_l; [exact HL|].
    assert (0 <= Q_load * x) by (apply Qmult_le_0_compat; lra).
    assert (0 <= Q_load * x * (L - x)) by (apply Qmult_le_0_compat; lra).
    lra. }
  assert (Hle : running_max (fun a => spec_moment L Q_load a x) pos 0
                <= Q_load * x * (L - x) / L).
  { apply running_max_le; [exact Hexact|].
    intros a Ha. apply spec_moment_influence; auto. }
  split; [exact Hle|]. split.
  - intros Hends. apply Qle_antisym; [|apply running_max_init_le].
    eapply Qle_trans; [exact Hle|].
    destruct Hends as [H | H]; rewrite H; apply Qle_lteq; right; field; lra.
  - apply running_max_le; [exact HQ|].
    intros a Ha. apply spec_shear_bound; auto.
Qed.

Lemma envelope_below_exact_envelope_witness :
  exists max_M max_V,
    calculate_moving_load_envelope 0.25 4 [0; 0.1; 0.25] = Ret (max_M, max_V) /\
    nth 1 max_M 0 <= 4 * 0.1 * (0.25 - 0.1) / 0.25 /\
    nth 2 max_M 0 == 0 /\
    nth 1 max_V 0 <= 4.
Proof.
  destruct (envelope_below_exact_envelope 0.25 4 [0; 0.1; 0.25] 1)
    as (max_M & max_V & Henv & H1 & _ & H3);
    [reflexivity | discriminate | simpl; lia | split; discriminate |].
  destruct (envelope_below_exact_envelope 0.25 4 [0; 0.1; 0.25] 2)
    as (max_M' & max_V' & Henv' & _ & H2 & _);
    [reflexivity | discriminate | simpl; lia | split; discriminate |].
  rewrite Henv in Henv'. injection Henv' as <- <-.
  exists max_M, max_V. split; [exact Henv|]. split; [exact H1|].
  split; [apply H2; right; reflexivity | exact H3].
Defined.

Lemma load_position_index (L : Q) (q_positions : list Q) (a : Q) :
  0 < L ->
  np.linspace 0 L (py_int (L * 10) + 1) = Ret q_positions ->
  In a q_positions ->
  exists k, (0 <= k <= py_int (L * 10))%Z /\
    a == if (py_int (L * 10) =? 0)%Z then 0
         else inject_Z k * L / inject_Z (py_int (L * 10)).
Proof.
  intros HL Hlin Ha.
  destruct (load_positions L HL) as (pos & Hpos & Hplen & Hpnth & _).
  rewrite Hlin in Hpos. injection Hpos as <-.
  destruct (In_nth _ _ 0 Ha) as (k & Hk & <-).
  rewrite Hplen in Hk.
  destruct (py_int_bounds (L * 10)) as (Hn & _); [lra|].
  exists (Z.of_nat k). split; [lia|].
  apply Hpnth. lia.
Qed.

(** X7.  Where a sample position coincides with a load position of the
    sweep ([x = k L / n], [n = int(10 L) >= 1]) the moment envelope is
    exact: it equals [Q x (L - x) / L]. *)
Theorem envelope_exact_at_load_position
  (L Q_load : Q) (x_vals : list Q) (i : nat) (k : Z) :
  0 < L -> 0 <= Q_load -> (i < length x_vals)%nat ->
  (0 < py_int (L * 10))%Z -> (0 <= k <= py_int (L * 10))%Z ->
  nth i x_vals 0 == inject_Z k * L / inject_Z (py_int (L * 10)) ->
  exists max_M max_V,
    calculate_moving_load_envelope L Q_load x_vals = Ret (max_M, max_V) /\
    nth i max_M 0 == Q_load * nth i x_vals 0 * (L - nth i x_vals 0) / L.
Proof.
  intros HL HQ Hi Hn Hk Hx.
  destruct (load_positions L HL) as (pos & Hpos & Hplen & Hpnth & Hpin).
  destruct (envelope_at_samples L Q_load x_vals (positive_span_count L HL))
    as (pos' & max_M & max_V & Hpos' & Henv & _ & _ & Hnth).
  rewrite Hpos in Hpos'. injection Hpos' as <-.
  exists max_M, max_V. split; [exact Henv|].
  destruct (Hnth i Hi) as [-> _].
  set (x := nth i x_vals 0) in *.
  set (a := nth (Z.to_nat k) pos 0).
  assert (Hain : In a pos) by (apply nth_In; rewrite Hplen; lia).
  assert (Hax : a == x).
  { unfold a. rewrite (Hpnth (Z.to_nat k)) by lia.
    destruct (Z.eqb_spec (py_int (L * 10)) 0); [lia|].
    rewrite Z2Nat.id by lia. now rewrite Hx. }
  assert (Hxin : 0 <= x <= L) by (rewrite <- Hax; now apply Hpin).
  apply Qle_antisym.
  - apply running_max_le.
    + apply Qle_shift_div_l; [exact HL|].
      assert (0 <= Q_load * x) by (apply Qmult_le_0_compat; lra).
      assert (0 <= Q_load * x * (L - x)) by (apply Qmult_le_0_compat; lra).
      lra.
    + intros a' Ha'. apply spec_moment_influence; auto.
  - eapply Qle_trans;
      [|apply (running_max_ge (fun a => spec_moment L Q_load a x) pos 0 a Hain)].
    cbv beta. rewrite (spec_moment_comp L Q_load x a x Hax).
    rewrite (spec_moment_left L Q_load HL x x) by lra.
    apply Qle_Qabs.
Qed.

Lemma envelope_exact_at_load_position_witness :
  exists max_M max_V,
    calculate_moving_load_envelope 0.3 4 [0; 0.1; 0.25] = Ret (max_M, max_V) /\
    nth 1 max_M 0 == 4 * 0.1 * (0.3 - 0.1) / 0.3.
Proof.
  apply (envelope_exact_at_load_position 0.3 4 [0; 0.1; 0.25] 1 1);
    try reflexivity.
  - discriminate.
  - simpl; lia.
  - vm_compute. split; discriminate.
Defined.

(** X8.  The shear envelope at the supports, for [L > 0] and [Q >= 0]:
    at a sample on the left support it is the full load [Q]; at a sample
    on the right support (with [n = int(10 L) >= 1] sweep intervals) it is
    [Q (n - 1) / n], below the load, because a load standing on a sample
    counts with the shear to its left. *)
Theorem envelope_shear_at_supports
  (L Q_load : Q) (x_vals : list Q) (i : nat) :
  0 < L -> 0 <= Q_load -> (i < length x_vals)%nat ->
  exists max_M max_V,
    calculate_moving_load_envelope L Q_load x_vals = Ret (max_M, max_V) /\
    (nth i x_vals 0 == 0 -> nth i max_V 0 == Q_load) /\
    (nth i x_vals 0 == L -> (0 < py_int (L * 10))%Z ->
     nth i max_V 0
     == Q_load * (inject_Z (py_int (L * 10)) - 1) / inject_Z (py_int (L * 10))).
Proof.
  intros HL HQ Hi.
  destruct (load_positions L HL) as (pos & Hpos & Hplen & Hpnth & Hpin).
  destruct (envelope_at_samples L Q_load x_vals (positive_span_count L HL))
    as (pos' & max_M & max_V & Hpos' & Henv & _ & _ & Hnth).
  rewrite Hpos in Hpos'. injection Hpos' as <-.
  exists max_M, max_V. split; [exact Henv|].
  destruct (Hnth i Hi) as [_ ->].
  set (x := nth i x_vals 0) in *.
  set (n := py_int (L * 10)) in *.
  assert (Hn0 : (0 <= n)%Z).
  { destruct (py_int_bounds (L * 10)) as (Hn & _); [lra | exact Hn]. }
  split.
  - intros Hx0. apply Qle_antisym.
    + apply running_max_le; [exact HQ|].
      intros a Ha. apply spec_shear_bound; auto.
    + set (a := nth 0 pos 0).
      assert (Hain : In a pos) by (apply nth_In; rewrite Hplen; lia).
      assert (Ha0 : a == 0).
      { unfold a. rewrite (Hpnth 0%nat) by lia.
        destruct (n =? 0)%Z; [reflexivity|].
        change (inject_Z (Z.of_nat 0)) with 0. unfold Qdiv. ring. }
      eapply Qle_trans;
        [|apply (running_max_ge (fun a => spec_shear L Q_load a x) pos 0 a Hain)].
      cbv beta. rewrite (spec_shear_abs L Q_load HL HQ a x) by (now apply Hpin).
      replace (Qle_bool x a) with true
        by (symmetry; apply Qle_bool_iff; rewrite Hx0, Ha0; apply Qle_refl).
      rewrite Ha0. apply Qle_lteq. right. field. lra.
  - intros HxL Hn.
    assert (Hnq : 1 <= inject_Z n).
    { change 1 with (inject_Z 1). rewrite <- Zle_Qle. lia. }
    apply Qle_antisym.
    + apply running_max_le.
      * apply Qle_shift_div_l; [lra|].
        assert (0 <= Q_load * (inject_Z n - 1))
          by (apply Qmult_le_0_compat; lra).
        lra.
      * intros a Ha.
        rewrite (spec_shear_abs L Q_load HL HQ a x) by (now apply Hpin).
        destruct (load_position_index L pos a HL Hpos Ha) as (k & Hk & Hak).
        fold n in Hk, Hak.
        destruct (Z.eqb_spec n 0) as [Hz | _]; [lia|].
        assert (Hkq : 0 <= inject_Z k <= inject_Z n).
        { split; [change 0 with (inject_Z 0)|]; rewrite <- Zle_Qle; lia. }
        destruct (Qle_bool x a) eqn:Hle.
        -- apply Qle_bool_iff in Hle. destruct (Hpin a Ha) as [_ HaL].
           assert (HaL' : a == L) by lra.
           rewrite HaL'.
           setoid_replace (Q_load * (L - L) / L) with 0 by (field; lra).
           apply Qle_shift_div_l; [lra|].
           assert (0 <= Q_load * (inject_Z n - 1))
             by (apply Qmult_le_0_compat; lra).
           lra.
        -- assert (Hax : a < x).
           { apply Qnot_le_lt. intros Hc. apply Qle_bool_iff in Hc. congruence. }
           assert (Hkn : (k < n)%Z).
           { destruct (Z_lt_le_dec k n) as [Hlt | Hge]; [exact Hlt|].
             assert (k = n) by lia. subst k.
             assert (a == L) by (rewrite Hak; field; lra). lra. }
           assert (Hkq' : inject_Z k <= inject_Z n - 1).
           { assert (H : inject_Z k <= inject_Z (n - 1))
               by (rewrite <- Zle_Qle; lia).
             unfold Z.sub in H. rewrite inject_Z_plus in H.
             change (inject_Z (- (1))) with (- (1)) in H. lra. }
           rewrite Hak.
           setoid_replace (Q_load * (inject_Z k * L / inject_Z n) / L)
             with (Q_load * inject_Z k / inject_Z n) by (field; lra).
           apply Qle_shift_div_r; [lra|].
           setoid_replace (Q_load * (inject_Z n - 1) / inject_Z n * inject_Z n)
             with (Q_load * (inject_Z n - 1)) by (field; lra).
           assert (0 <= Q_load * (inject_Z n - 1 - inject_Z k))
             by (apply Qmult_le_0_compat; lra).
           lra.
    + set (a := nth (Z.to_nat (n - 1)) pos 0).
      assert (Hain : In a pos) by (apply nth_In; rewrite Hplen; lia).
      assert (Ha : a == (inject_Z n - 1) * L / inject_Z n).
      { unfold a. rewrite (Hpnth (Z.to_nat (n - 1))) by lia.
        destruct (Z.eqb_spec n 0); [lia|].
        rewrite Z2Nat.id by lia.
        unfold Z.sub. rewrite inject_Z_plus.
        change (inject_Z (- (1))) with (- (1)). field. lra. }
      assert (Hax : a < x).
      { rewrite Ha, HxL. apply Qlt_shift_div_r; [lra|].
        assert (0 < L * 1) by lra. lra. }
      eapply Qle_trans;
        [|apply (running_max_ge (fun a => spec_shear L Q_load a x) pos 0 a Hain)].
      cbv beta. rewrite (spec_shear_right L Q_load HL a x Hax), Qabs_opp, Ha.
      eapply Qle_trans; [|apply Qle_Qabs].
      apply Qle_lteq. right. field. lra.
Qed.

Lemma envelope_shear_at_supports_witness :
  exists max_M max_V,
    calculate_moving_load_envelope 0.3 4 [0; 0.1; 0.3] = Ret (max_M, max_V) /\
    nth 0 max_V 0 == 4 /\
    nth 2 max_V 0 == 4 * (3 - 1) / 3.
Proof.
  destruct (envelope_shear_at_supports 0.3 4 [0; 0.1; 0.3] 0)
    as (max_M & max_V & Henv & H1 & _);
    [reflexivity | discriminate | simpl; lia |].
  destruct (envelope_shear_at_supports 0.3 4 [0; 0.1; 0.3] 2)
    as (max_M' & max_V' & Henv' & _ & H2);
    [reflexivity | discriminate | simpl; lia |].
  rewrite Henv in Henv'. injection Henv' as <- <-.
  exists max_M, max_V. split; [exact Henv|].
  split; [apply H1; reflexivity|].
  apply H2; reflexivity.
Defined.

Lemma spec_moment_scale (L Q_load c a x : Q) :
  spec_moment L (c * Q_load) a x == c * spec_moment L Q_load a x.
Proof.
  unfold spec_moment. destruct (Qle_bool x a); unfold Qdiv; ring.
Qed.

Lemma spec_shear_scale (L Q_load c a x : Q) :
  spec_shear L (c * Q_load) a x == c * spec_shear L Q_load a x.
Proof.
  unfold spec_shear. destruct (Qle_bool x a); unfold Qdiv; ring.
Qed.

Lemma spec_moment_opp (L Q_load a x : Q) :
  spec_moment L (- Q_load) a x == - spec_moment L Q_load a x.
Proof.
  unfold spec_moment. destruct (Qle_bool x a); unfold Qdiv; ring.
Qed.

Lemma spec_shear_opp (L Q_load a x : Q) :
  spec_shear L (- Q_load) a x == - spec_shear L Q_load a x.
Proof.
  unfold spec_shear. destruct (Qle_bool x a); unfold Qdiv; ring.
Qed.

(** X9.  The envelope depends on the size of the travelling load only:
    a load [- Q] gives the envelope of [Q] (a negative input is not
    rejected, its sign is dropped), and a load [c Q] with [c >= 0] gives
    [c] times the envelope of [Q]. *)
Theorem envelope_sign_and_scale
  (L Q_load c : Q) (x_vals : list Q) (i : nat) :
  0 < L -> 0 <= c -> (i < length x_vals)%nat ->
  exists max_M max_V neg_M neg_V scaled_M scaled_V,
    calculate_moving_load_envelope L Q_load x_vals = Ret (max_M, max_V) /\
    calculate_moving_load_envelope L (- Q_load) x_vals = Ret (neg_M, neg_V) /\
    calculate_moving_load_envelope L (c * Q_load) x_vals
    = Ret (scaled_M, scaled_V) /\
    nth i neg_M 0 == nth i max_M 0 /\
    nth i neg_V 0 == nth i max_V 0 /\
    nth i scaled_M 0 == c * nth i max_M 0 /\
    nth i scaled_V 0 == c * nth i max_V 0.
Proof.
  intros HL Hc Hi.
  pose proof (positive_span_count L HL) as Hn.
  destruct (envelope_at_samples L Q_load x_vals Hn)
    as (pos & max_M & max_V & Hpos & Henv & _ & _ & Hnth).
  destruct (envelope_at_samples L (- Q_load) x_vals Hn)
    as (pos1 & neg_M & neg_V & Hpos1 & Henv1 & _ & _ & Hnth1).
  destruct (envelope_at_samples L (c * Q_load) x_vals Hn)
    as (pos2 & scaled_M & scaled_V & Hpos2 & Henv2 & _ & _ & Hnth2).
  rewrite Hpos in Hpos1, Hpos2.
  injection Hpos1 as <-. injection Hpos2 as <-.
  exists max_M, max_V, neg_M, neg_V, scaled_M, scaled_V.
  do 3 (split; [assumption|]).
  destruct (Hnth i Hi) as [-> ->].
  destruct (Hnth1 i Hi) as [-> ->].
  destruct (Hnth2 i Hi) as [-> ->].
  repeat split.
  - apply running_max_comp; [|reflexivity].
    intros a. now rewrite spec_moment_opp, Qabs_opp.
  - apply running_max_comp; [|reflexivity].
    intros a. now rewrite spec_shear_opp, Qabs_opp.
  - apply running_max_scale; [exact Hc | | ring].
    intros a. rewrite spec_moment_scale, Qabs_Qmult.
    now rewrite (Qabs_pos c Hc).
  - apply running_max_scale; [exact Hc | | ring].
    intros a. rewrite spec_shear_scale, Qabs_Qmult.
    now rewrite (Qabs_pos c Hc).
Qed.

Lemma envelope_sign_and_scale_witness :
  exists max_M max_V neg_M neg_V scaled_M scaled_V,
    calculate_moving_load_envelope 0.3 4 [0; 0.1; 0.3] = Ret (max_M, max_V) /\
    calculate_moving_load_envelope 0.3 (- 4) [0; 0.1; 0.3] = Ret (neg_M, neg_V) /\
    calculate_moving_load_envelope 0.3 (2 * 4) [0; 0.1; 0.3]
    = Ret (scaled_M, scaled_V) /\
    nth 1 neg_M 0 == nth 1 max_M 0 /\
    nth 1 neg_V 0 == nth 1 max_V 0 /\
    nth 1 scaled_M 0 == 2 * nth 1 max_M 0 /\
    nth 1 scaled_V 0 == 2 * nth 1 max_V 0.
Proof.
  apply (envelope_sign_and_scale 0.3 4 2 [0; 0.1; 0.3] 1);
    [reflexivity | discriminate | simpl; lia].
Defined.

(** ** One pass of the loop, inverted *)

Lemma evaluate_profile_inv
  (L delta_g Q_load fy : Q) (x_vals : list Q) (p : props) (r : results) :
  evaluate_profile L delta_g Q_load fy x_vals p = Ret r ->
  exists M_Q V_Q,
    calculate_moving_load_envelope L Q_load x_vals = Ret (M_Q, V_Q) /\
    length M_Q = length x_vals /\ length V_Q = length x_vals /\
    np.max (np.add (np.scale 1.35
                      (np.add (fst (calculate_distributed_moment_shear L
                                      (mass p * 9.81 / 1000) x_vals))
                              (fst (calculate_triangular_moment_shear L
                                      delta_g x_vals))))
                   (np.scale 1.5 M_Q))
    = Ret (M_Ed r) /\
    M_array r
    = np.add (np.scale 1.35
                (np.add (fst (calculate_distributed_moment_shear L
                                (mass p * 9.81 / 1000) x_vals))
                        (fst (calculate_triangular_moment_shear L
                                delta_g x_vals))))
             (np.scale 1.5 M_Q) /\
    V_array r
    = np.add (np.scale 1.35
                (np.add (np.abs (snd (calculate_distributed_moment_shear L
                                        (mass p * 9.81 / 1000) x_vals)))
                        (np.abs (snd (calculate_triangular_moment_shear L
                                        delta_g x_vals)))))
             (np.scale 1.5 V_Q) /\
    np.max (V_array r) = Ret (V_Ed r) /\
    x r = x_vals /\
    Sigma r = M_Ed r / Wy p * 1000 /\
    Util r = M_Ed r / Wy p * 1000 / fy.
Proof.
  intros Hr.
  destruct (calculate_moving_load_envelope L Q_load x_vals) as [[M_Q V_Q]|e]
    eqn:Henv.
  - rewrite (evaluate_profile_unfold L delta_g Q_load fy x_vals p M_Q V_Q Henv)
      in Hr.
    cbv zeta in Hr.
    destruct (envelope_entries_lengths L Q_load x_vals M_Q V_Q Henv) as [HlM HlV].
    exists M_Q, V_Q. split; [reflexivity|]. do 2 (split; [assumption|]).
    destruct (np.max (np.add (np.scale 1.35 _) (np.scale 1.5 M_Q)))
      as [mM|e] eqn:HmM; cbn [bind] in Hr; [|discriminate].
    destruct (np.max (np.add (np.scale 1.35 _) (np.scale 1.5 V_Q)))
      as [mV|e] eqn:HmV; cbn [bind] in Hr; [|discriminate].
    injection Hr as <-. cbn [M_Ed V_Ed Sigma Util x M_array V_array].
    repeat split; assumption.
  - unfold evaluate_profile in Hr.
    unfold calculate_distributed_moment_shear,
      calculate_triangular_moment_shear in Hr.
    rewrite Henv in Hr. discriminate.
Qed.

Lemma Forall_of_nth (P : Q -> Prop) (l : list Q) :
  (forall i, (i < length l)%nat -> P (nth i l 0)) -> Forall P l.
Proof.
  intros H. apply Forall_forall. intros v Hv.
  destruct (In_nth _ _ 0 Hv) as (i & Hi & <-). now apply H.
Qed.

Lemma distributed_moment_nonneg (L q x : Q) :
  0 <= q -> 0 <= x <= L -> 0 <= q * x / 2 * (L - x).
Proof.
  intros Hq [Hx0 HxL].
  setoid_replace (q * x / 2 * (L - x)) with ((1 # 2) * (q * (x * (L - x))))
    by field.
  assert (0 <= x * (L - x)) by (apply Qmult_le_0_compat; lra).
  assert (0 <= q * (x * (L - x))) by (apply Qmult_le_0_compat; lra).
  lra.
Qed.

Lemma triangular_moment_nonneg (L q_max x : Q) :
  0 < L -> 0 <= q_max -> 0 <= x <= L ->
  0 <= q_max * L / 6 * x - q_max * x ^ 3 / (6 * L).
Proof.
  intros HL Hq [Hx0 HxL].
  setoid_replace (q_max * L / 6 * x - q_max * x ^ 3 / (6 * L))
    with (q_max * (x * ((L - x) * (L + x))) / (6 * L)) by (field; lra).
  apply Qle_shift_div_l; [lra|].
  assert (0 <= (L - x) * (L + x)) by (apply Qmult_le_0_compat; lra).
  assert (0 <= x * ((L - x) * (L + x))) by (apply Qmult_le_0_compat; lra).
  assert (0 <= q_max * (x * ((L - x) * (L + x))))
    by (apply Qmult_le_0_compat; lra).
  lra.
Qed.

Lemma np_max_nonneg (xs : list Q) (m : Q) :
  np.max xs = Ret m -> Forall (fun v => 0 <= v) xs -> 0 <= m.
Proof.
  intros Hm Hall. destruct (np_max_attained xs m Hm) as (v & Hv & ->).
  rewrite Forall_forall in Hall. now apply Hall.
Qed.

(** X10.  For inputs inside the data model ([L > 0], loads and mass not
    negative, [Wy > 0], [fy > 0], samples inside the span) a pass of the
    loop yields no negative design quantity: every entry of the moment
    and shear arrays, the governing moment and shear, the stress and the
    utilization are [>= 0]. *)
Theorem design_quantities_nonnegative
  (L delta_g Q_load fy : Q) (x_vals : list Q) (p : props) (r : results) :
  0 < L -> 0 <= delta_g -> 0 <= Q_load -> 0 < fy ->
  0 <= mass p -> 0 < Wy p ->
  Forall (fun x => 0 <= x <= L) x_vals ->
  evaluate_profile L delta_g Q_load fy x_vals p = Ret r ->
  Forall (fun m => 0 <= m) (M_array r) /\
  Forall (fun v => 0 <= v) (V_array r) /\
  0 <= M_Ed r /\ 0 <= V_Ed r /\ 0 <= Sigma r /\ 0 <= Util r.
Proof.
  intros HL Hdg HQ Hfy Hmass HWy Hx Hr.
  destruct (evaluate_profile_inv _ _ _ _ _ _ _ Hr)
    as (M_Q & V_Q & Henv & HlM & HlV & HmaxM & HM & HV & HmaxV & _ & HS & HU).
  destruct (superposition_lengths L delta_g x_vals p M_Q V_Q HlM HlV)
    as [HlenM HlenV].
  destruct (envelope_entries_nonneg_aux L Q_load x_vals M_Q V_Q Henv)
    as [HMQ HVQ].
  set (g_k := mass p * 9.81 / 1000) in *.
  assert (Hg : 0 <= g_k).
  { unfold g_k.
    setoid_replace (mass p * 9.81 / 1000) with ((981 # 100000) * mass p)
      by field.
    lra. }
  assert (HMarr : Forall (fun m => 0 <= m) (M_array r)).
  { rewrite HM. apply Forall_of_nth. intros i Hi. rewrite HlenM in Hi.
    assert (H1 : length (np.add (fst (calculate_distributed_moment_shear L g_k x_vals))
                           (fst (calculate_triangular_moment_shear L delta_g x_vals)))
                 = length x_vals)
      by (rewrite add_length; cbn [fst calculate_distributed_moment_shear
                                     calculate_triangular_moment_shear];
          now rewrite !length_map).
    rewrite add_nth by (rewrite ?scale_length; congruence).
    rewrite !scale_nth by congruence.
    rewrite add_nth
      by (cbn [fst calculate_distributed_moment_shear
                 calculate_triangular_moment_shear];
          rewrite !length_map; congruence).
    destruct (distributed_nth L g_k x_vals i Hi) as [-> _].
    destruct (triangular_nth L delta_g x_vals i Hi) as [-> _].
    assert (Hxi : 0 <= nth i x_vals 0 <= L).
    { rewrite Forall_forall in Hx. apply Hx. now apply nth_In. }
    pose proof (distributed_moment_nonneg L g_k _ Hg Hxi).
    pose proof (triangular_moment_nonneg L delta_g _ HL Hdg Hxi).
    assert (0 <= nth i M_Q 0).
    { rewrite Forall_forall in HMQ. apply HMQ. apply nth_In. congruence. }
    lra. }
  assert (HVarr : Forall (fun v => 0 <= v) (V_array r)).
  { rewrite HV. apply Forall_of_nth. intros i Hi. rewrite HlenV in Hi.
    assert (HVg : length (snd (calculate_distributed_moment_shear L g_k x_vals))
                  = length x_vals) by apply length_map.
    assert (HVdg : length (snd (calculate_triangular_moment_shear L delta_g x_vals))
                   = length x_vals) by apply length_map.
    assert (H2 : length (np.add (np.abs (snd (calculate_distributed_moment_shear L g_k x_vals)))
                           (np.abs (snd (calculate_triangular_moment_shear L delta_g x_vals))))
                 = length x_vals)
      by (rewrite add_length; rewrite !abs_length; congruence).
    rewrite add_nth by (rewrite ?scale_length; congruence).
    rewrite !scale_nth by congruence.
    rewrite add_nth by (rewrite ?abs_length; congruence).
    rewrite !abs_nth by congruence.
    pose proof (Qabs_nonneg
                  (nth i (snd (calculate_distributed_moment_shear L g_k x_vals)) 0)).
    pose proof (Qabs_nonneg
                  (nth i (snd (calculate_triangular_moment_shear L delta_g x_vals)) 0)).
    assert (0 <= nth i V_Q 0).
    { rewrite Forall_forall in HVQ. apply HVQ. apply nth_In. congruence. }
    lra. }
  assert (HMEd : 0 <= M_Ed r).
  { apply (np_max_nonneg (M_array r)); [now rewrite HM | exact HMarr]. }
  assert (HVEd : 0 <= V_Ed r) by (apply (np_max_nonneg (V_array r)); assumption).
  assert (HSig : 0 <= Sigma r).
  { rewrite HS.
    assert (0 <= M_Ed r / Wy p) by (apply Qle_shift_div_l; lra). lra. }
  repeat split; try assumption.
  rewrite HU, <- HS. apply Qle_shift_div_l; lra.
Qed.

Lemma design_quantities_nonnegative_witness :
  exists r,
    evaluate_profile 1 16 10 235 [0; 0.5; 1] (mk_props 6.0 20.0) = Ret r /\
    Forall (fun m => 0 <= m) (M_array r) /\
    Forall (fun v => 0 <= v) (V_array r) /\
    0 <= M_Ed r /\ 0 <= V_Ed r /\ 0 <= Sigma r /\ 0 <= Util r.
Proof.
  assert (H : { r | evaluate_profile 1 16 10 235 [0; 0.5; 1]
                      (mk_props 6.0 20.0) = Ret r })
    by (eexists; vm_compute; reflexivity).
  destruct H as [r Hr]. exists r. split; [exact Hr|].
  apply (design_quantities_nonnegative 1 16 10 235 [0; 0.5; 1]
           (mk_props 6.0 20.0) r); try reflexivity; try discriminate;
    try exact Hr.
  repeat constructor; discriminate.
Defined.

(** ** The run and its report *)

Section RunInversion.

Variables (L delta_g Q_load fy : Q).

Lemma loop_none_inv (x_vals : list Q) (items : list (string * props)) :
  profile_loop L delta_g Q_load fy x_vals items (None, None) = Ret (None, None) ->
  Forall (rejected L delta_g Q_load fy x_vals) items.
Proof.
  induction items as [|[name p] items IH]; cbn [profile_loop]; [constructor|].
  destruct (evaluate_profile L delta_g Q_load fy x_vals p) as [r|e] eqn:Hr;
    cbn [bind]; [|discriminate].
  destruct (Qle_bool (Util r) 1.0) eqn:Hle; [discriminate|].
  intros Hloop. constructor; [|now apply IH].
  exists r. split; [exact Hr|].
  apply Qnot_le_lt. intros Hc. apply Qle_bool_iff in Hc. congruence.
Qed.

Lemma loop_state_shape (x_vals : list Q) (items : list (string * props))
  (st : option string * option results) :
  profile_loop L delta_g Q_load fy x_vals items (None, None) = Ret st ->
  st = (None, None) \/
  exists name p r, st = (Some name, Some r) /\ In (name, p) items.
Proof.
  induction items as [|[name p] items IH]; cbn [profile_loop].
  - intros [= <-]. now left.
  - destruct (evaluate_profile L delta_g Q_load fy x_vals p) as [r|e];
      cbn [bind]; [|discriminate].
    destruct (Qle_bool (Util r) 1.0).
    + intros [= <-]. right. exists name, p, r. split; [reflexivity | now left].
    + intros Hloop. destruct (IH Hloop) as [-> | (n & p' & r' & -> & Hin)];
        [now left|].
      right. exists n, p', r'. split; [reflexivity | now right].
Qed.

Lemma run_success_inv (catalog : list (string * props))
  (best_profile : string) (r : results) :
  run L delta_g Q_load fy catalog = Ret (Success best_profile r) ->
  exists x_vals,
    np.linspace 0 L 200 = Ret x_vals /\
    length x_vals = 200%nat /\
    profile_loop L delta_g Q_load fy x_vals catalog (None, None)
    = Ret (Some best_profile, Some r) /\
    best_profile <> EmptyString.
Proof.
  unfold run.
  destruct (linspace_spec 0 L 200) as (xs & Hlin & Hlen & _); [lia|].
  rewrite Hlin. cbn [bind].
  destruct (profile_loop L delta_g Q_load fy xs catalog (None, None))
    as [[[name|] [r0|]]|e] eqn:Hloop; cbn [bind]; intros Hrun;
    try discriminate Hrun.
  destruct name as [|c name]; cbn [truthy] in Hrun; [discriminate Hrun|].
  injection Hrun as <- <-. exists xs. repeat split; try assumption.
  discriminate.
Qed.

Lemma run_error_inv (catalog : list (string * props)) :
  run L delta_g Q_load fy catalog = Ret Error_kein_profil_gefunden ->
  exists x_vals st,
    np.linspace 0 L 200 = Ret x_vals /\
    profile_loop L delta_g Q_load fy x_vals catalog (None, None) = Ret st /\
    (st = (None, None) \/
     exists p r, st = (Some EmptyString, Some r) /\ In (EmptyString, p) catalog).
Proof.
  unfold run.
  destruct (linspace_spec 0 L 200) as (xs & Hlin & _); [lia|].
  rewrite Hlin. cbn [bind].
  destruct (profile_loop L delta_g Q_load fy xs catalog (None, None))
    as [st|e] eqn:Hloop; cbn [bind]; intros Hrun; [|discriminate Hrun].
  exists xs, st. split; [reflexivity|]. split; [exact Hloop|].
  destruct (loop_state_shape xs catalog st Hloop)
    as [-> | (name & p & r & -> & Hin)]; [now left|].
  right. destruct name as [|c name]; cbn [truthy] in Hrun; [|discriminate].
  now exists p, r.
Qed.

End RunInversion.

(** X11.  A run that shows a profile shows a sound one: its name is not
    empty and belongs to an entry of the table; the results shown are the
    ones computed for that entry over the 200 sample positions, with a
    utilization of at most 1; the plotted arrays have 200 entries each. *)
Theorem shown_profile_is_sound
  (L delta_g Q_load fy : Q) (catalog : list (string * props))
  (best_profile : string) (r : results) :
  0 < L -> 0 < fy -> Forall (fun e => 0 < Wy (snd e)) catalog ->
  run L delta_g Q_load fy catalog = Ret (Success best_profile r) ->
  best_profile <> EmptyString /\
  Util r <= 1.0 /\
  (exists p, In (best_profile, p) catalog /\
     evaluate_profile L delta_g Q_load fy (x r) p = Ret r) /\
  np.linspace 0 L 200 = Ret (x r) /\
  length (x r) = 200%nat /\
  length (M_array r) = 200%nat /\
  length (V_array r) = 200%nat.
Proof.
  intros _ _ _ Hrun.
  destruct (run_success_inv _ _ _ _ _ _ _ Hrun)
    as (xs & Hlin & Hlen & Hloop & Hname).
  destruct (loop_selected_inv _ _ _ _ _ _ _ _ Hloop)
    as (before & p & after & Hcat & _ & Hr & Hu).
  destruct (evaluate_profile_inv _ _ _ _ _ _ _ Hr)
    as (M_Q & V_Q & _ & HlM & HlV & _ & HM & HV & _ & Hx & _).
  destruct (superposition_lengths L delta_g xs p M_Q V_Q HlM HlV)
    as [HlenM HlenV].
  rewrite Hx, HM, HV, HlenM, HlenV.
  repeat split; try assumption.
  exists p. split; [|exact Hr].
  rewrite Hcat. apply in_or_app. right. now left.
Qed.

Lemma shown_profile_is_sound_witness :
  exists r,
    run 0.05 1 1 235 IPE_DATA = Ret (Success "IPE 80" r) /\
    Util r <= 1.0 /\
    length (x r) = 200%nat /\
    length (M_array r) = 200%nat.
Proof.
  assert (H : { r | run 0.05 1 1 235 IPE_DATA = Ret (Success "IPE 80" r) })
    by (eexists; vm_compute; reflexivity).
  destruct H as [r Hrun]. exists r. split; [exact Hrun|].
  destruct (shown_profile_is_sound 0.05 1 1 235 IPE_DATA "IPE 80" r)
    as (_ & Hu & _ & _ & Hx & HM & _);
    [reflexivity | reflexivity | repeat constructor | exact Hrun |].
  auto.
Defined.

(** X12.  A run reports "Kein Profil gefunden" only when it has to: for
    inputs of moderate size, if no name in the table is empty, that report
    means that every profile of the table was evaluated and rejected with
    a utilization above 1. *)
Theorem not_found_means_all_rejected
  (L delta_g Q_load fy : Q) (catalog : list (string * props)) :
  0 < L -> moderate L -> moderate delta_g -> moderate Q_load -> 0 < fy ->
  Forall (fun e => 0 < Wy (snd e) /\ moderate (mass (snd e))) catalog ->
  Forall (fun e => fst e <> EmptyString) catalog ->
  run L delta_g Q_load fy catalog = Ret Error_kein_profil_gefunden ->
  exists x_vals,
    np.linspace 0 L 200 = Ret x_vals /\
    Forall (rejected L delta_g Q_load fy x_vals) catalog.
Proof.
  intros _ _ _ _ _ _ Hnames Hrun.
  destruct (run_error_inv _ _ _ _ _ Hrun)
    as (xs & st & Hlin & Hloop & [-> | (p & r & _ & Hin)]).
  - exists xs. split; [exact Hlin|]. now apply loop_none_inv.
  - rewrite Forall_forall in Hnames. specialize (Hnames _ Hin).
    now elim Hnames.
Qed.

Lemma not_found_means_all_rejected_witness :
  exists x_vals,
    np.linspace 0 0.05 200 = Ret x_vals /\
    Forall (rejected 0.05 1000000000 0 235 x_vals)
      [ ("IPE 80"%string, mk_props 6.0 20.0) ].
Proof.
  apply (not_found_means_all_rejected 0.05 1000000000 0 235
           [ ("IPE 80"%string, mk_props 6.0 20.0) ]).
  - reflexivity.
  - unfold moderate; vm_compute; discriminate.
  - unfold moderate; vm_compute; discriminate.
  - unfold moderate; vm_compute; discriminate.
  - reflexivity.
  - repeat constructor. unfold moderate; vm_compute; discriminate.
  - repeat constructor. discriminate.
  - vm_compute. reflexivity.
Defined.

(** ** The selection under a sorted table *)

Lemma sorted_after (R : string * props -> string * props -> Prop)
  (before after : list (string * props)) (e : string * props) :
  StronglySorted R (before ++ e :: after) -> Forall (R e) after.
Proof.
  induction before as [|b before IH]; cbn [app]; intros Hs.
  - now apply StronglySorted_inv in Hs.
  - apply StronglySorted_inv in Hs. now apply IH.
Qed.

(** X14.  In a table sorted by mass the loop selects the lightest
    passing profile: no profile of the table that passes the check (its
    pass returns a utilization of at most 1) has a smaller mass than the
    selected one. *)
Theorem selected_profile_is_lightest
  (L delta_g Q_load fy : Q) (x_vals : list Q)
  (catalog : list (string * props)) (best_profile : string) (r : results) :
  0 < L -> 0 < fy -> Forall (fun e => 0 < Wy (snd e)) catalog ->
  StronglySorted (fun e1 e2 => mass (snd e1) <= mass (snd e2)) catalog ->
  profile_loop L delta_g Q_load fy x_vals catalog (None, None)
  = Ret (Some best_profile, Some r) ->
  exists p,
    In (best_profile, p) catalog /\
    evaluate_profile L delta_g Q_load fy x_vals p = Ret r /\
    forall e r',
      In e catalog ->
      evaluate_profile L delta_g Q_load fy x_vals (snd e) = Ret r' ->
      Util r' <= 1.0 ->
      mass p <= mass (snd e).
Proof.
  intros _ _ _ Hsorted Hloop.
  destruct (loop_selected_inv _ _ _ _ _ _ _ _ Hloop)
    as (before & p & after & Hcat & Hrej & Hr & Hu).
  exists p. split; [|split; [exact Hr|]].
  - rewrite Hcat. apply in_or_app. right. now left.
  - intros e r' Hin Hr' Hu'. rewrite Hcat in Hin, Hsorted.
    apply in_app_or in Hin. destruct Hin as [Hb | [<- | Ha]].
    + rewrite Forall_forall in Hrej.
      destruct (Hrej e Hb) as (r0 & Hr0 & Hu0).
      rewrite Hr' in Hr0. injection Hr0 as <-. lra.
    + apply Qle_refl.
    + pose proof (sorted_after _ _ _ _ Hsorted) as Hafter.
      rewrite Forall_forall in Hafter. now apply (Hafter e).
Qed.

(** The program's table is sorted by mass (and by section modulus). *)
Lemma IPE_DATA_sorted_by_mass :
  StronglySorted (fun e1 e2 => mass (snd e1) <= mass (snd e2)) IPE_DATA.
Proof.
  unfold IPE_DATA.
  repeat (constructor; [|repeat (constructor; [discriminate|]); constructor]).
  constructor.
Qed.

Lemma selected_profile_is_lightest_witness :
  exists r p,
    In ("IPE 100"%string, p) IPE_DATA /\
    evaluate_profile 1 16 10 235 [0; 0.5; 1] p = Ret r /\
    forall e r',
      In e IPE_DATA ->
      evaluate_profile 1 16 10 235 [0; 0.5; 1] (snd e) = Ret r' ->
      Util r' <= 1.0 ->
      mass p <= mass (snd e).
Proof.
  assert (Hsel : { r | profile_loop 1 16 10 235 [0; 0.5; 1] IPE_DATA
                         (None, None)
                       = Ret (Some "IPE 100"%string, Some r) }).
  { eexists. vm_compute. reflexivity. }
  destruct Hsel as [r Hsel]. exists r.
  apply (selected_profile_is_lightest 1 16 10 235 [0; 0.5; 1] IPE_DATA _ r);
    try reflexivity; try exact Hsel.
  - repeat constructor.
  - exact IPE_DATA_sorted_by_mass.
Defined.

(** ** Two runs over one table *)

Section TwoRuns.

Variables (L delta_g Q_load fy : Q).
Variables (L' delta_g' Q_load' fy' : Q).
Variable x_vals : list Q.
Variable admissible : props -> Prop.

(** Every admissible profile that the first run evaluates is evaluated
    by the second run as well, and passes there if it passes in the
    first. *)
Hypothesis Hpass :
  forall p r1,
    admissible p ->
    evaluate_profile L delta_g Q_load fy x_vals p = Ret r1 ->
    exists r2,
      evaluate_profile L' delta_g' Q_load' fy' x_vals p = Ret r2 /\
      (Util r1 <= 1.0 -> Util r2 <= 1.0).

Lemma selection_not_later (catalog : list (string * props))
  (name : string) (r : results) :
  Forall (fun e => admissible (snd e)) catalog ->
  profile_loop L delta_g Q_load fy x_vals catalog (None, None)
  = Ret (Some name, Some r) ->
  exists before p after before' name' p' r' after',
    catalog = before ++ (name, p) :: after /\
    Forall (rejected L delta_g Q_load fy x_vals) before /\
    evaluate_profile L delta_g Q_load fy x_vals p = Ret r /\
    catalog = before' ++ (name', p') :: after' /\
    Forall (rejected L' delta_g' Q_load' fy' x_vals) before' /\
    evaluate_profile L' delta_g' Q_load' fy' x_vals p' = Ret r' /\
    profile_loop L' delta_g' Q_load' fy' x_vals catalog (None, None)
    = Ret (Some name', Some r') /\
    (length before' <= length before)%nat.
Proof.
  induction catalog as [|[n0 p0] items IH]; intros Hadm; cbn [profile_loop];
    [discriminate|].
  apply Forall_cons_iff in Hadm. destruct Hadm as [Hadm0 Hadm].
  cbn [snd] in Hadm0. specialize (IH Hadm).
  destruct (evaluate_profile L delta_g Q_load fy x_vals p0) as [r0|e] eqn:Hr0;
    cbn [bind]; [|discriminate].
  destruct (Hpass p0 r0 Hadm0 Hr0) as (r0' & Hr0' & Hmono).
  rewrite Hr0'. cbn [bind].
  destruct (Qle_bool (Util r0) 1.0) eqn:Hle.
  - intros [= <- <-].
    apply Qle_bool_iff in Hle. pose proof (Hmono Hle) as Hle'.
    exists [], p0, items, [], n0, p0, r0', items.
    replace (Qle_bool (Util r0') 1.0) with true
      by (symmetry; now apply Qle_bool_iff).
    repeat split; auto.
  - intros Hsel.
    destruct (IH Hsel)
      as (before & p & after & before' & name' & p' & r' & after'
          & Hcat & Hrej & Hr & Hcat' & Hrej' & Hr' & Hloop' & Hlen).
    assert (Hrej0 : rejected L delta_g Q_load fy x_vals (n0, p0)).
    { exists r0. split; [exact Hr0|].
      apply Qnot_le_lt. intros Hc. apply Qle_bool_iff in Hc. congruence. }
    destruct (Qle_bool (Util r0') 1.0) eqn:Hle'.
    + exists ((n0, p0) :: before), p, after, [], n0, p0, r0', items.
      repeat split; auto.
      * cbn [app]. now rewrite <- Hcat.
      * simpl. lia.
    + exists ((n0, p0) :: before), p, after,
        ((n0, p0) :: before'), name', p', r', after'.
      repeat split; auto.
      * cbn [app]. now rewrite <- Hcat.
      * cbn [app]. now rewrite <- Hcat'.
      * constructor; [|exact Hrej'].
        exists r0'. split; [exact Hr0'|].
        apply Qnot_le_lt. intros Hc. apply Qle_bool_iff in Hc. congruence.
      * simpl. lia.
Qed.

End TwoRuns.

(** The same pass with another yield strength: all but the utilization
    is unchanged. *)
Lemma evaluate_profile_other_grade
  (L delta_g Q_load fy fy' : Q) (x_vals : list Q) (p : props) (r : results) :
  evaluate_profile L delta_g Q_load fy x_vals p = Ret r ->
  exists r',
    evaluate_profile L delta_g Q_load fy' x_vals p = Ret r' /\
    Sigma r' = Sigma r /\ Util r' = Sigma r / fy' /\ Util r = Sigma r / fy.
Proof.
  intros Hr.
  destruct (evaluate_profile_inv _ _ _ _ _ _ _ Hr)
    as (M_Q & V_Q & Henv & _ & _ & HmaxM & HM & HV & HmaxV & _ & HS & HU).
  rewrite (evaluate_profile_unfold L delta_g Q_load fy' x_vals p M_Q V_Q Henv).
  cbv zeta. rewrite HmaxM. cbn [bind].
  rewrite <- HV, HmaxV. cbn [bind].
  eexists. split; [reflexivity|]. cbn [Sigma Util].
  rewrite HS, HU. repeat split; reflexivity.
Qed.

(** X15.  A stronger steel grade never moves the selection to a later
    profile: when the loop selects a profile for a yield strength [fy], it
    also selects one for any [fy' >= fy], at the same place of the table
    or before it. *)
Theorem stronger_grade_selects_not_later
  (L delta_g Q_load fy fy' : Q) (x_vals : list Q)
  (catalog : list (string * props)) (name : string) (r : results) :
  0 < L -> 0 < fy -> fy <= fy' ->
  Forall (fun e => 0 < Wy (snd e)) catalog ->
  profile_loop L delta_g Q_load fy x_vals catalog (None, None)
  = Ret (Some name, Some r) ->
  exists before p after before' name' p' r' after',
    catalog = before ++ (name, p) :: after /\
    Forall (rejected L delta_g Q_load fy x_vals) before /\
    evaluate_profile L delta_g Q_load fy x_vals p = Ret r /\
    catalog = before' ++ (name', p') :: after' /\
    Forall (rejected L delta_g Q_load fy' x_vals) before' /\
    evaluate_profile L delta_g Q_load fy' x_vals p' = Ret r' /\
    profile_loop L delta_g Q_load fy' x_vals catalog (None, None)
    = Ret (Some name', Some r') /\
    (length before' <= length before)%nat.
Proof.
  intros _ Hfy Hfy' _ Hsel.
  apply (selection_not_later L delta_g Q_load fy L delta_g Q_load fy' x_vals
           (fun _ => True));
    [|apply Forall_forall; intros; exact I | exact Hsel].
  intros p r1 _ Hr1.
  destruct (evaluate_profile_other_grade _ _ _ _ fy' _ _ _ Hr1)
    as (r2 & Hr2 & _ & HU2 & HU1).
  exists r2. split; [exact Hr2|].
  rewrite HU1, HU2. intros Hu.
  assert (HS : Sigma r1 <= 1.0 * fy).
  { apply (Qmult_le_r _ _ (/ fy)); [now apply Qinv_lt_0_compat|].
    setoid_replace (1.0 * fy * / fy) with 1.0 by (field; lra).
    exact Hu. }
  apply Qle_shift_div_r; lra.
Qed.

Lemma stronger_grade_selects_not_later_witness :
  exists r before p after before' name' p' r' after',
    IPE_DATA = before ++ ("IPE 100"%string, p) :: after /\
    evaluate_profile 1 16 10 235 [0; 0.5; 1] p = Ret r /\
    IPE_DATA = before' ++ (name', p') :: after' /\
    profile_loop 1 16 10 355 [0; 0.5; 1] IPE_DATA (None, None)
    = Ret (Some name', Some r') /\
    (length before' <= length before)%nat.
Proof.
  assert (Hsel : { r | profile_loop 1 16 10 235 [0; 0.5; 1] IPE_DATA
                         (None, None)
                       = Ret (Some "IPE 100"%string, Some r) }).
  { eexists. vm_compute. reflexivity. }
  destruct Hsel as [r Hsel]. exists r.
  destruct (stronger_grade_selects_not_later 1 16 10 235 355 [0; 0.5; 1]
              IPE_DATA "IPE 100" r)
    as (before & p & after & before' & name' & p' & r' & after'
        & H1 & _ & H2 & H3 & _ & _ & H4 & H5);
    [reflexivity | reflexivity | discriminate | repeat constructor
    | exact Hsel |].
  exists before, p, after, before', name', p', r', after'. auto.
Defined.

(** ** Heavier loads *)

Lemma running_max_mono (f g : Q -> Q) (pos : list Q) (m m' : Q) :
  (forall a, Qabs (f a) <= Qabs (g a)) -> m <= m' ->
  running_max f pos m <= running_max g pos m'.
Proof.
  intros Hfg. revert m m'; induction pos as [|a pos IH]; intros m m' Hm; simpl;
    [exact Hm|].
  apply IH. apply Q.max_le_compat; [exact Hm | apply Hfg].
Qed.

Lemma spec_moment_unit (L Q_load a x : Q) :
  spec_moment L Q_load a x == Q_load * spec_moment L 1 a x.
Proof.
  unfold spec_moment. destruct (Qle_bool x a); unfold Qdiv; ring.
Qed.

Lemma spec_shear_unit (L Q_load a x : Q) :
  spec_shear L Q_load a x == Q_load * spec_shear L 1 a x.
Proof.
  unfold spec_shear. destruct (Qle_bool x a); unfold Qdiv; ring.
Qed.

Lemma Qabs_scale_le (q q' s : Q) :
  0 <= q -> q <= q' -> Qabs (q * s) <= Qabs (q' * s).
Proof.
  intros Hq Hqq'. rewrite !Qabs_Qmult.
  rewrite (Qabs_pos q) by exact Hq. rewrite (Qabs_pos q') by lra.
  pose proof (Qabs_nonneg s).
  assert (0 <= (q' - q) * Qabs s) by (apply Qmult_le_0_compat; lra).
  lra.
Qed.

Lemma np_max_mono (xs ys : list Q) (m m' : Q) :
  length xs = length ys ->
  (forall i, (i < length xs)%nat -> nth i xs 0 <= nth i ys 0) ->
  np.max xs = Ret m -> np.max ys = Ret m' -> m <= m'.
Proof.
  intros Hlen Hle Hm Hm'.
  destruct (np_max_attained xs m Hm) as (v & Hv & ->).
  destruct (In_nth _ _ 0 Hv) as (i & Hi & <-).
  eapply Qle_trans; [apply (Hle i Hi)|].
  apply (np_max_ge ys m' _ Hm'). apply nth_In. congruence.
Qed.

(** With the same span, samples and profile, lighter loads give a
    governing moment that is not larger. *)
Lemma evaluate_profile_lighter_loads
  (L delta_g delta_g' Q_load Q_load' fy : Q)
  (x_vals : list Q) (p : props) (r1 : results) :
  0 < L ->
  Forall (fun x => 0 <= x <= L) x_vals ->
  delta_g <= delta_g' -> 0 <= Q_load -> Q_load <= Q_load' ->
  evaluate_profile L delta_g' Q_load' fy x_vals p = Ret r1 ->
  exists r2,
    evaluate_profile L delta_g Q_load fy x_vals p = Ret r2 /\
    M_Ed r2 <= M_Ed r1.
Proof.
  intros HL Hx Hdg HQ HQ' Hr1.
  destruct (evaluate_profile_inv _ _ _ _ _ _ _ Hr1)
    as (M_Q1 & V_Q1 & Henv1 & HlM1 & HlV1 & HmaxM1 & HM1 & _).
  pose proof (positive_span_count L HL) as Hn.
  destruct (envelope_at_samples L Q_load' x_vals Hn)
    as (pos & M1 & V1 & Hpos & Henv1' & _ & _ & Hnth1).
  rewrite Henv1 in Henv1'. injection Henv1' as <- <-.
  destruct (envelope_at_samples L Q_load x_vals Hn)
    as (pos2 & M_Q2 & V_Q2 & Hpos2 & Henv2 & HlM2 & HlV2 & Hnth2).
  rewrite Hpos in Hpos2. injection Hpos2 as <-.
  destruct (evaluate_profile_returns L delta_g Q_load fy x_vals p Hn)
    as (r2 & Hr2).
  { intros ->. cbn in HmaxM1. discriminate. }
  exists r2. split; [exact Hr2|].
  destruct (evaluate_profile_inv _ _ _ _ _ _ _ Hr2)
    as (M_Q2' & V_Q2' & Henv2' & _ & _ & HmaxM2 & _).
  rewrite Henv2 in Henv2'. injection Henv2' as <- <-.
  destruct (superposition_lengths L delta_g x_vals p M_Q2 V_Q2 HlM2 HlV2)
    as [Hlen2 _].
  destruct (superposition_lengths L delta_g' x_vals p M_Q1 V_Q1 HlM1 HlV1)
    as [Hlen1 _].
  refine (np_max_mono _ _ _ _ (eq_trans Hlen2 (eq_sym Hlen1)) _ HmaxM2 HmaxM1).
  intros i Hi. rewrite Hlen2 in Hi.
  set (g_k := mass p * 9.81 / 1000).
  assert (HMg : length (fst (calculate_distributed_moment_shear L g_k x_vals))
                = length x_vals) by apply length_map.
  assert (HMdg : forall q,
             length (fst (calculate_triangular_moment_shear L q x_vals))
             = length x_vals) by (intros q; apply length_map).
  assert (H1 : forall q,
             length (np.add (fst (calculate_distributed_moment_shear L g_k x_vals))
                       (fst (calculate_triangular_moment_shear L q x_vals)))
             = length x_vals)
    by (intros q; rewrite add_length; rewrite ?HMdg; congruence).
  rewrite !add_nth by (rewrite ?scale_length, ?H1, ?HMdg; congruence).
  rewrite !scale_nth by (rewrite ?H1; congruence).
  rewrite !add_nth by (rewrite ?HMdg; congruence).
  destruct (triangular_nth L delta_g x_vals i Hi) as [-> _].
  destruct (triangular_nth L delta_g' x_vals i Hi) as [-> _].
  destruct (Hnth1 i Hi) as [-> _]. destruct (Hnth2 i Hi) as [-> _].
  assert (Hxi : 0 <= nth i x_vals 0 <= L).
  { rewrite Forall_forall in Hx. apply Hx. now apply nth_In. }
  set (xi := nth i x_vals 0) in *.
  set (A := nth i (fst (calculate_distributed_moment_shear L g_k x_vals)) 0).
  set (c := L / 6 * xi - xi ^ 3 / (6 * L)).
  assert (Hc : 0 <= c).
  { pose proof (triangular_moment_nonneg L 1 xi HL ltac:(lra) Hxi) as H.
    unfold c. setoid_replace (L / 6 * xi - xi ^ 3 / (6 * L))
      with (1 * L / 6 * xi - 1 * xi ^ 3 / (6 * L)) by (field; lra).
    exact H. }
  setoid_replace (delta_g * L / 6 * xi - delta_g * xi ^ 3 / (6 * L))
    with (delta_g * c) by (unfold c; field; lra).
  setoid_replace (delta_g' * L / 6 * xi - delta_g' * xi ^ 3 / (6 * L))
    with (delta_g' * c) by (unfold c; field; lra).
  assert (Hdc : 0 <= (delta_g' - delta_g) * c)
    by (apply Qmult_le_0_compat; lra).
  assert (Henvle :
            running_max (fun a => spec_moment L Q_load a xi) pos 0
            <= running_max (fun a => spec_moment L Q_load' a xi) pos 0).
  { apply running_max_mono; [|apply Qle_refl].
    intros a. rewrite (spec_moment_unit L Q_load), (spec_moment_unit L Q_load').
    now apply Qabs_scale_le. }
  lra.
Qed.

(** X16.  Lighter loads never move the selection to a later profile:
    when the loop selects a profile under the loads [delta_g'] and
    [Q'], it also selects one under loads [delta_g <= delta_g'] and
    [0 <= Q <= Q'], at the same place of the table or before it. *)
Theorem lighter_loads_select_not_later
  (L delta_g delta_g' Q_load Q_load' fy : Q) (x_vals : list Q)
  (catalog : list (string * props)) (name : string) (r : results) :
  0 < L -> 0 < fy ->
  Forall (fun e => 0 < Wy (snd e)) catalog ->
  Forall (fun x => 0 <= x <= L) x_vals ->
  delta_g <= delta_g' -> 0 <= Q_load -> Q_load <= Q_load' ->
  profile_loop L delta_g' Q_load' fy x_vals catalog (None, None)
  = Ret (Some name, Some r) ->
  exists before p after before' name' p' r' after',
    catalog = before ++ (name, p) :: after /\
    Forall (rejected L delta_g' Q_load' fy x_vals) before /\
    evaluate_profile L delta_g' Q_load' fy x_vals p = Ret r /\
    catalog = before' ++ (name', p') :: after' /\
    Forall (rejected L delta_g Q_load fy x_vals) before' /\
    evaluate_profile L delta_g Q_load fy x_vals p' = Ret r' /\
    profile_loop L delta_g Q_load fy x_vals catalog (None, None)
    = Ret (Some name', Some r') /\
    (length before' <= length before)%nat.
Proof.
  intros HL Hfy HWy Hx Hdg HQ HQ' Hsel.
  apply (selection_not_later L delta_g' Q_load' fy L delta_g Q_load fy x_vals
           (fun p => 0 < Wy p)); [|exact HWy | exact Hsel].
  intros p r1 HWp Hr1.
  destruct (evaluate_profile_lighter_loads L delta_g delta_g' Q_load Q_load'
              fy x_vals p r1 HL Hx Hdg HQ HQ' Hr1) as (r2 & Hr2 & HM).
  exists r2. split; [exact Hr2|].
  destruct (evaluate_profile_inv _ _ _ _ _ _ _ Hr1)
    as (_ & _ & _ & _ & _ & _ & _ & _ & _ & _ & _ & HU1).
  destruct (evaluate_profile_inv _ _ _ _ _ _ _ Hr2)
    as (_ & _ & _ & _ & _ & _ & _ & _ & _ & _ & _ & HU2).
  rewrite HU1, HU2. intros Hu.
  eapply Qle_trans; [|exact Hu].
  apply Qle_shift_div_r; [exact Hfy|].
  setoid_replace (M_Ed r1 / Wy p * 1000 / fy * fy)
    with (M_Ed r1 / Wy p * 1000) by (field; lra).
  assert (M_Ed r2 / Wy p <= M_Ed r1 / Wy p).
  { apply Qle_shift_div_r; [exact HWp|].
    setoid_replace (M_Ed r1 / Wy p * Wy p) with (M_Ed r1) by (field; lra).
    exact HM. }
  lra.
Qed.

Lemma lighter_loads_select_not_later_witness :
  exists r before p after before' name' p' r' after',
    IPE_DATA = before ++ ("IPE 100"%string, p) :: after /\
    evaluate_profile 1 16 10 235 [0; 0.5; 1] p = Ret r /\
    IPE_DATA = before' ++ (name', p') :: after' /\
    profile_loop 1 8 5 235 [0; 0.5; 1] IPE_DATA (None, None)
    = Ret (Some name', Some r') /\
    (length before' <= length before)%nat.
Proof.
  assert (Hsel : { r | profile_loop 1 16 10 235 [0; 0.5; 1] IPE_DATA
                         (None, None)
                       = Ret (Some "IPE 100"%string, Some r) }).
  { eexists. vm_compute. reflexivity. }
  destruct Hsel as [r Hsel]. exists r.
  destruct (lighter_loads_select_not_later 1 8 16 5 10 235 [0; 0.5; 1]
              IPE_DATA "IPE 100" r)
    as (before & p & after & before' & name' & p' & r' & after'
        & H1 & _ & H2 & H3 & _ & _ & H4 & H5);
    [ reflexivity | reflexivity | repeat constructor
    | repeat constructor; discriminate
    | discriminate | discriminate | discriminate | exact Hsel | ].
  exists before, p, after, before', name', p', r', after'. auto.
Defined.

(** ** The details of the selected profile *)

Lemma getitem_unique (before after : list (string * props))
  (name : string) (p : props) :
  NoDup (map fst (before ++ (name, p) :: after)) ->
  getitem (before ++ (name, p) :: after) name = Some p.
Proof.
  induction before as [|[k v] before IH]; cbn [app map fst getitem].
  - intros _. now rewrite String.eqb_refl.
  - intros Hnd. apply NoDup_cons_iff in Hnd. destruct Hnd as [Hk Hnd].
    destruct (String.eqb_spec k name) as [-> | Hne]; [|now apply IH].
    exfalso. apply Hk. rewrite map_app. apply in_or_app. right. now left.
Qed.

(** X17.  After a run that shows a profile the details never miss their
    key: the table lookup by the selected name succeeds, and (the names
    of a dict being distinct) it finds the very profile whose results are
    shown, so the weight and the self-weight displayed are the ones the
    results were computed with. *)
Theorem shown_details_belong_to_selection
  (L delta_g Q_load fy : Q) (catalog : list (string * props))
  (best_profile : string) (r : results) :
  0 < L -> 0 < fy -> Forall (fun e => 0 < Wy (snd e)) catalog ->
  NoDup (map fst catalog) ->
  run L delta_g Q_load fy catalog = Ret (Success best_profile r) ->
  exists p,
    getitem catalog best_profile = Some p /\
    evaluate_profile L delta_g Q_load fy (x r) p = Ret r /\
    shown_weight catalog best_profile = Some (mass p) /\
    shown_self_weight catalog best_profile = Some (mass p * 9.81 / 1000).
Proof.
  intros _ _ _ Hnd Hrun.
  destruct (run_success_inv _ _ _ _ _ _ _ Hrun)
    as (xs & Hlin & Hlen & Hloop & Hname).
  destruct (loop_selected_inv _ _ _ _ _ _ _ _ Hloop)
    as (before & p & after & Hcat & _ & Hr & Hu).
  destruct (evaluate_profile_inv _ _ _ _ _ _ _ Hr)
    as (_ & _ & _ & _ & _ & _ & _ & _ & _ & Hx & _).
  exists p. rewrite Hx.
  assert (Hget : getitem catalog best_profile = Some p).
  { rewrite Hcat in *. now apply getitem_unique. }
  unfold shown_weight, shown_self_weight. rewrite Hget.
  repeat split; auto.
Qed.

Lemma shown_details_belong_to_selection_witness :
  exists r p,
    run 0.05 1 1 235 IPE_DATA = Ret (Success "IPE 80" r) /\
    getitem IPE_DATA "IPE 80" = Some p /\
    shown_weight IPE_DATA "IPE 80" = Some (mass p) /\
    shown_self_weight IPE_DATA "IPE 80" = Some (mass p * 9.81 / 1000).
Proof.
  assert (H : { r | run 0.05 1 1 235 IPE_DATA = Ret (Success "IPE 80" r) })
    by (eexists; vm_compute; reflexivity).
  destruct H as [r Hrun]. exists r.
  destruct (shown_details_belong_to_selection 0.05 1 1 235 IPE_DATA "IPE 80" r)
    as (p & H1 & _ & H2 & H3);
    [reflexivity | reflexivity | repeat constructor | | exact Hrun |].
  - repeat constructor; simpl; intuition discriminate.
  - exists p. auto.
Defined.

(** ** The sample positions *)

Lemma linspace_last (start stop : Q) (num : Z) (ys : list Q) :
  (1 < num)%Z ->
  np.linspace start stop num = Ret ys ->
  nth (Z.to_nat num - 1) ys 0 = stop.
Proof.
  intros Hnum. unfold np.linspace.
  replace (num <? 0)%Z with false by (symmetry; apply Z.ltb_ge; lia).
  replace (1 <? num)%Z with true by (symmetry; apply Z.ltb_lt; lia).
  set (y := map (fun v => v + start) _).
  assert (Hy : length y = Z.to_nat num).
  { unfold y. rewrite length_map.
    destruct (0 <? num - 1)%Z; [destruct (Qeq_bool _ 0)|];
      rewrite length_map; apply arange_from_length. }
  intros [= <-]. rewrite set_last_nth by lia.
  replace (S (Z.to_nat num - 1) =? length y)%nat with true
    by (symmetry; apply Nat.eqb_eq; lia).
  reflexivity.
Qed.

(** X18.  For [L > 0] the program's sample grid has 200 positions
    [i L / 199]: it starts on the left support, ends exactly on the right
    support, increases strictly, stays in the span, and has no position at
    mid-span. *)
Theorem sample_grid_shape (L : Q) :
  0 < L ->
  exists x_vals,
    np.linspace 0 L 200 = Ret x_vals /\
    length x_vals = 200%nat /\
    nth 0 x_vals 0 == 0 /\
    nth 199 x_vals 0 = L /\
    (forall i, (i < 200)%nat ->
       nth i x_vals 0 == inject_Z (Z.of_nat i) * L / 199 /\
       0 <= nth i x_vals 0 <= L /\
       ~ nth i x_vals 0 == L / 2) /\
    (forall i, (i < 199)%nat -> nth i x_vals 0 < nth (S i) x_vals 0).
Proof.
  intros HL.
  destruct (sample_positions L HL) as (xs & Hlin & Hlen & Hnth & Hin).
  exists xs. split; [exact Hlin|]. split; [exact Hlen|].
  split; [|split; [|split]].
  - rewrite (Hnth 0%nat) by lia. change (inject_Z (Z.of_nat 0)) with 0.
    field.
  - apply (linspace_last 0 L 200 xs); [lia | exact Hlin].
  - intros i Hi. split; [now apply Hnth|]. split.
    + apply Hin. apply nth_In. lia.
    + rewrite (Hnth i Hi). intros Hmid.
      assert (H2 : inject_Z (2 * Z.of_nat i) == inject_Z 199).
      { rewrite inject_Z_mult. change (inject_Z 2) with 2.
        change (inject_Z 199) with 199.
        assert (E : (2 * inject_Z (Z.of_nat i) - 199) * L == 0).
        { setoid_replace ((2 * inject_Z (Z.of_nat i) - 199) * L)
            with (398 * (inject_Z (Z.of_nat i) * L / 199 - L / 2)) by field.
          rewrite Hmid. ring. }
        apply Qmult_integral in E. destruct E as [E | E]; lra. }
      apply (proj1 (inject_Z_injective _ _)) in H2. lia.
  - intros i Hi. rewrite (Hnth i) by lia. rewrite (Hnth (S i)) by lia.
    rewrite Nat2Z.inj_succ. unfold Z.succ. rewrite inject_Z_plus.
    change (inject_Z 1) with 1.
    apply Qlt_shift_div_l; [lra|].
    setoid_replace (inject_Z (Z.of_nat i) * L / 199 * 199)
      with (inject_Z (Z.of_nat i) * L) by field.
    lra.
Qed.

Lemma sample_grid_shape_witness :
  exists x_vals,
    np.linspace 0 0.25 200 = Ret x_vals /\
    length x_vals = 200%nat /\
    nth 199 x_vals 0 = 0.25 /\
    ~ nth 100 x_vals 0 == 0.25 / 2.
Proof.
  destruct (sample_grid_shape 0.25) as (xs & H1 & H2 & _ & H3 & H4 & _);
    [reflexivity|].
  exists xs. repeat split; try assumption.
  apply (H4 100%nat). lia.
Defined.
